(** * weatherCachingAPI: the TTL-LRU cache of [main.go]

    A shallow embedding of the cache shared by the two programs of the
    repository (the simulated and the Weatherstack-backed server carry the
    same [Cache], [getCachedWeatherData], [updateCache] and [evictOldest]),
    followed by the properties of the specification stated over it.

    - [time]   : the part of Go's [time] package the cache uses.
    - [golist] : the part of Go's [container/list] the cache uses.
    - the cache records and its three functions, in the order of the source.
    - [RW]     : the locking protocol of the two public functions, as an
                 interleaving of their atomic steps under a [sync.RWMutex]. *)

From stdpp Require Import base numbers list gmap strings pretty.

Local Open Scope Z_scope.

(** ** Go's [time] package, as far as the cache uses it *)

Module time.

(** An instant, in nanoseconds since the zero [Time]. *)
Definition Time := Z.

(** [type Duration int64], a number of nanoseconds. *)
Definition Duration := Z.

Definition minDuration : Duration := - 2 ^ 63.
Definition maxDuration : Duration := 2 ^ 63 - 1.

Definition Second : Duration := 1000000000.
Definition Minute : Duration := 60 * Second.

(** [t.Sub(u)]: the difference, saturated to the range of [Duration]. *)
Definition Sub (t u : Time) : Duration :=
  if t - u <? minDuration then minDuration
  else if maxDuration <? t - u then maxDuration
  else t - u.

(** [time.Since(t)] is [time.Now().Sub(t)]; the clock reading is passed
    explicitly. *)
Definition Since (now t : Time) : Duration := Sub now t.

End time.

(** ** The records of [main.go] *)

(** [Temp] is a [float64]; the cache only stores and returns it, so it is
    carried as its 64 raw bits. *)
Record CityWeatherData := mkCityWeatherData {
  City : string;
  Temp : Z;
  Desc : string;
  CacheTime : time.Time
}.

(** [CityWeatherData{}] *)
Definition zeroCityWeatherData : CityWeatherData :=
  {| City := ""; Temp := 0; Desc := ""; CacheTime := 0 |}.

(** The source names the second field [data]; here [itemData], since [data]
    is also a field of [Cache]. *)
Record cacheItem := mkCacheItem {
  city : string;
  itemData : CityWeatherData
}.

(** A [*list.Element]: the identity of the allocated element and the
    [Value] it was created with (the program never reassigns [Value]). *)
Record Element := mkElement {
  eid : nat;
  Value : cacheItem
}.

#[global] Instance CityWeatherData_eq_dec : EqDecision CityWeatherData.
Proof. solve_decision. Defined.
#[global] Instance cacheItem_eq_dec : EqDecision cacheItem.
Proof. solve_decision. Defined.
#[global] Instance Element_eq_dec : EqDecision Element.
Proof. solve_decision. Defined.

(** ** Go's [container/list], as far as the cache uses it

    The list is the sequence of its elements from front to back. *)

Module golist.

Definition List := list Element.

(** [list.New()] *)
Definition New : List := [].

(** [l.Len()] *)
Definition Len (l : List) : Z := Z.of_nat (length l).

(** [l.Back()]: the last element, or nil. *)
Definition Back (l : List) : option Element := last l.

(** [l.Front()] *)
Definition Front (l : List) : option Element := head l.

(** [e.list == l] *)
Definition member (e : Element) (l : List) : bool :=
  bool_decide (eid e ∈ eid <$> l).

(** [l.Remove(e)]: unlinks [e] if it is an element of [l], and does nothing
    otherwise. *)
Fixpoint Remove (e : Element) (l : List) : List :=
  match l with
  | [] => []
  | x :: l' => if decide (eid x = eid e) then l' else x :: Remove e l'
  end.

(** [l.MoveToFront(e)]: nothing if [e] is not an element of [l] (or is
    already its front), else [e] is unlinked and linked in again after the
    root. *)
Definition MoveToFront (e : Element) (l : List) : List :=
  if member e l then e :: Remove e l else l.

(** [l.PushFront(v)]: allocates a new element, here with identity [fresh],
    and returns it. *)
Definition PushFront (fresh : nat) (v : cacheItem) (l : List)
  : Element * List :=
  let e := {| eid := fresh; Value := v |} in (e, e :: l).

End golist.

(** ** The cache *)

(** [mu] guards the two structures and is modelled in [RW] below; [nextElem]
    is the allocator behind [PushFront]: the identity of the next
    [list.Element]. *)
Record Cache := mkCache {
  data : gmap string Element;
  orderedList : golist.List;
  maxSize : Z;
  expiry : time.Duration;
  nextElem : nat
}.

Definition set_data (m : gmap string Element) (c : Cache) : Cache :=
  {| data := m; orderedList := orderedList c; maxSize := maxSize c;
     expiry := expiry c; nextElem := nextElem c |}.

Definition set_orderedList (l : golist.List) (c : Cache) : Cache :=
  {| data := data c; orderedList := l; maxSize := maxSize c;
     expiry := expiry c; nextElem := nextElem c |}.

(** The composite literal of [init], for any two settings. *)
Definition newCache (size : Z) (ttl : time.Duration) : Cache :=
  {| data := ∅; orderedList := golist.New; maxSize := size; expiry := ttl;
     nextElem := 0 |}.

(** [func init()] *)
Definition init : Cache := newCache 100 (30 * time.Minute).

(** [func evictOldest()] *)
Definition evictOldest (c : Cache) : Cache :=
  match golist.Back (orderedList c) with
  | Some oldest =>
      let c1 := set_orderedList (golist.Remove oldest (orderedList c)) c in
      let item := Value oldest in
      set_data (delete (city item) (data c1)) c1
  | None => c
  end.

(** [func updateCache(city string, data CityWeatherData)] *)
Definition updateCache (k : string) (d : CityWeatherData) (c : Cache)
  : Cache :=
  let c1 :=
    if bool_decide (maxSize c ≤ golist.Len (orderedList c))
    then evictOldest c else c in
  let item := {| city := k; itemData := d |} in
  let '(elem, l) := golist.PushFront (nextElem c1) item (orderedList c1) in
  {| data := <[k := elem]> (data c1); orderedList := l;
     maxSize := maxSize c1; expiry := expiry c1;
     nextElem := S (nextElem c1) |}.

(** [func getCachedWeatherData(city string) (CityWeatherData, bool)], with
    the reading of the clock as an argument; the cache after the call is
    returned next to the two results. *)
Definition getCachedWeatherData (now : time.Time) (k : string) (c : Cache)
  : CityWeatherData * bool * Cache :=
  match data c !! k with
  | None => (zeroCityWeatherData, false, c)
  | Some elem =>
      let c1 := set_orderedList (golist.MoveToFront elem (orderedList c)) c in
      let item := Value elem in
      if bool_decide (time.Since now (CacheTime (itemData item)) < expiry c1)
      then (itemData item, true, c1)
      else
        let c2 := set_orderedList (golist.Remove elem (orderedList c1)) c1 in
        (zeroCityWeatherData, false, set_data (delete k (data c2)) c2)
  end.

(** The state in which [getCachedWeatherData] checks the age of a present
    entry: after [MoveToFront], before the comparison. *)
Definition promoted (elem : Element) (c : Cache) : Cache :=
  set_orderedList (golist.MoveToFront elem (orderedList c)) c.

(** The removal of the expired path, [Remove] and then [delete]. *)
Definition dropExpired (k : string) (elem : Element) (c : Cache) : Cache :=
  let c2 := set_orderedList (golist.Remove elem (orderedList c)) c in
  set_data (delete k (data c2)) c2.

(** ** The two public operations and their sequences *)

Inductive Op :=
| Lookup (now : time.Time) (k : string)
| Insert (k : string) (v : CityWeatherData).

Definition step (c : Cache) (o : Op) : Cache :=
  match o with
  | Lookup now k => (getCachedWeatherData now k c).2
  | Insert k v => updateCache k v c
  end.

Definition run (c : Cache) (ops : list Op) : Cache := foldl step c ops.

(** The observations the specification speaks of. *)

(** The keys of the recency sequence, most recently used first. *)
Definition recency (c : Cache) : list string :=
  (λ e, city (Value e)) <$> orderedList c.

(** The keys of the index. *)
Definition indexKeys (c : Cache) : gset string := dom (data c).

(** The number of entries of the index, [len(cache.data)]. *)
Definition indexSize (c : Cache) : Z := Z.of_nat (size (data c)).

(** The number of elements of the recency sequence, the quantity
    [updateCache] compares with [maxSize]. *)
Definition listSize (c : Cache) : Z := golist.Len (orderedList c).

Definition present (k : string) (c : Cache) : Prop := is_Some (data c !! k).

(** Some sample data. *)
Definition sample (name : string) (t : time.Time) : CityWeatherData :=
  {| City := name; Temp := 0; Desc := "Cold"; CacheTime := t |}.

(** ** The invariant of every reachable cache

    Elements of the recency sequence have pairwise different identities,
    all of them already allocated, and every entry of the index points to an
    element of the sequence that carries the entry's key. *)

Record wf (c : Cache) : Prop := mkWf {
  wf_nodup : NoDup (eid <$> orderedList c);
  wf_fresh : ∀ e, e ∈ orderedList c → (eid e < nextElem c)%nat;
  wf_index : ∀ k e,
    data c !! k = Some e → e ∈ orderedList c ∧ city (Value e) = k
}.

(** The other direction: every element of the sequence is the one the index
    holds for its key. *)
Definition synced (c : Cache) : Prop :=
  ∀ e, e ∈ orderedList c → data c !! city (Value e) = Some e.

(** ** The caller

    [func weatherHandler], as far as the cache is concerned. [fetched] is the
    answer of the data source on a miss; [None] is a failed fetch, which only
    the Weatherstack-backed server has. The empty city is refused before the
    cache is touched. *)
Definition weatherHandler (now : time.Time) (k : string)
    (fetched : option CityWeatherData) (c : Cache)
  : option CityWeatherData * Cache :=
  if decide (k = "") then (None, c)
  else
    let '(cachedWeatherData, found, c1) := getCachedWeatherData now k c in
    if found then (Some cachedWeatherData, c1)
    else
      match fetched with
      | Some newData => (Some newData, updateCache k newData c1)
      | None => (None, c1)
      end.

Record Request := mkRequest {
  req_now : time.Time;
  req_city : string;
  req_fetched : option CityWeatherData
}.

Definition serve (c : Cache) (r : Request) : Cache :=
  (weatherHandler (req_now r) (req_city r) (req_fetched r) c).2.

Definition serveAll (c : Cache) (rs : list Request) : Cache :=
  foldl serve c rs.

(** ** The locking protocol

    The two public functions as sequences of atomic steps on the shared
    cache, run by several goroutines under one [sync.RWMutex]. A step that
    returns [None] cannot be taken: the goroutine is blocked or finished. *)

Module RW.

(** [sync.RWMutex]: how many goroutines hold it for reading, whether one
    holds it for writing, and whether one has called [Lock] and waits for
    the readers to leave. *)
Record RWMutex := mkRWMutex { readers : nat; writer : bool; waiting : bool }.

Definition unlocked : RWMutex :=
  {| readers := 0; writer := false; waiting := false |}.

(** [mu.RLock()]: blocks while a writer holds the lock or waits for it. *)
Definition RLock (m : RWMutex) : option RWMutex :=
  if writer m || waiting m then None
  else Some {| readers := S (readers m); writer := false; waiting := false |}.

(** [mu.RUnlock()] *)
Definition RUnlock (m : RWMutex) : option RWMutex :=
  match readers m with
  | O => None
  | S n => Some {| readers := n; writer := writer m; waiting := waiting m |}
  end.

(** [mu.Lock()], first half: the caller competes with the other writers and
    announces itself; from then on no new reader is admitted. *)
Definition Lock_announce (m : RWMutex) : option RWMutex :=
  if writer m || waiting m then None
  else Some {| readers := readers m; writer := false; waiting := true |}.

(** [mu.Lock()], second half: the caller waits for the readers that hold the
    lock to leave, and then holds it. *)
Definition Lock_acquire (m : RWMutex) : option RWMutex :=
  if waiting m
  then match readers m with
       | O => Some {| readers := 0; writer := true; waiting := false |}
       | S _ => None
       end
  else None.

(** [mu.Unlock()] *)
Definition Unlock (m : RWMutex) : option RWMutex :=
  if writer m
  then Some {| readers := readers m; writer := false; waiting := waiting m |}
  else None.

(** The program points of [getCachedWeatherData], each named after the
    statement it is about to run, with the locals that are live there. *)
Inductive GetPc :=
| G_RLock
| G_index
| G_MoveToFront (elem : Element)
| G_check (elem : Element)
| G_Remove (elem : Element)
| G_delete
| G_RUnlock (r : CityWeatherData * bool)
| G_done (r : CityWeatherData * bool).

(** The program points of [updateCache]. *)
Inductive UpdPc :=
| U_Lock
| U_LockWait
| U_evict
| U_PushFront
| U_store (elem : Element)
| U_Unlock
| U_done.

(** A goroutine inside one of the two calls. *)
Inductive Thread :=
| Get (now : time.Time) (k : string) (pc : GetPc)
| Update (k : string) (d : CityWeatherData) (pc : UpdPc).

Definition stepGet (now : time.Time) (k : string) (pc : GetPc)
    (c : Cache) (m : RWMutex) : option (GetPc * Cache * RWMutex) :=
  match pc with
  | G_RLock => m' ← RLock m; Some (G_index, c, m')
  | G_index =>
      match data c !! k with
      | None => Some (G_RUnlock (zeroCityWeatherData, false), c, m)
      | Some elem => Some (G_MoveToFront elem, c, m)
      end
  | G_MoveToFront elem =>
      Some (G_check elem,
            set_orderedList (golist.MoveToFront elem (orderedList c)) c, m)
  | G_check elem =>
      let item := Value elem in
      if bool_decide (time.Since now (CacheTime (itemData item)) < expiry c)
      then Some (G_RUnlock (itemData item, true), c, m)
      else Some (G_Remove elem, c, m)
  | G_Remove elem =>
      Some (G_delete,
            set_orderedList (golist.Remove elem (orderedList c)) c, m)
  | G_delete =>
      Some (G_RUnlock (zeroCityWeatherData, false),
            set_data (delete k (data c)) c, m)
  | G_RUnlock r => m' ← RUnlock m; Some (G_done r, c, m')
  | G_done _ => None
  end.

Definition stepUpdate (k : string) (d : CityWeatherData) (pc : UpdPc)
    (c : Cache) (m : RWMutex) : option (UpdPc * Cache * RWMutex) :=
  match pc with
  | U_Lock => m' ← Lock_announce m; Some (U_LockWait, c, m')
  | U_LockWait => m' ← Lock_acquire m; Some (U_evict, c, m')
  | U_evict =>
      Some (U_PushFront,
            if bool_decide (maxSize c ≤ golist.Len (orderedList c))
            then evictOldest c else c,
            m)
  | U_PushFront =>
      let item := {| city := k; itemData := d |} in
      let '(elem, l) := golist.PushFront (nextElem c) item (orderedList c) in
      Some (U_store elem,
            {| data := data c; orderedList := l; maxSize := maxSize c;
               expiry := expiry c; nextElem := S (nextElem c) |},
            m)
  | U_store elem => Some (U_Unlock, set_data (<[k := elem]> (data c)) c, m)
  | U_Unlock => m' ← Unlock m; Some (U_done, c, m')
  | U_done => None
  end.

Definition stepThread (t : Thread) (c : Cache) (m : RWMutex)
  : option (Thread * Cache * RWMutex) :=
  match t with
  | Get now k pc =>
      '(pc', c', m') ← stepGet now k pc c m; Some (Get now k pc', c', m')
  | Update k d pc =>
      '(pc', c', m') ← stepUpdate k d pc c m; Some (Update k d pc', c', m')
  end.

(** The shared cache, its lock, and the goroutines. *)
Record Config := mkConfig {
  cache : Cache;
  mu : RWMutex;
  threads : list Thread
}.

(** Goroutine [i] takes its next step. *)
Definition stepAt (i : nat) (cf : Config) : option Config :=
  t ← threads cf !! i;
  '(t', c', m') ← stepThread t (cache cf) (mu cf);
  Some {| cache := c'; mu := m'; threads := <[i := t']> (threads cf) |}.

(** A schedule names the goroutine that moves at each instant. *)
Fixpoint exec (sched : list nat) (cf : Config) : option Config :=
  match sched with
  | [] => Some cf
  | i :: sched' => cf' ← stepAt i cf; exec sched' cf'
  end.

(** Between [RLock] and [RUnlock]. *)
Definition inRead (t : Thread) : bool :=
  match t with
  | Get _ _ pc =>
      match pc with G_RLock | G_done _ => false | _ => true end
  | Update _ _ _ => false
  end.

(** Between [Lock] and [Unlock]. *)
Definition inWrite (t : Thread) : bool :=
  match t with
  | Get _ _ _ => false
  | Update _ _ pc =>
      match pc with U_Lock | U_LockWait | U_done => false | _ => true end
  end.

Definition inCritical (t : Thread) : bool := inRead t || inWrite t.

(** Inside [Lock], announced and waiting for the readers. *)
Definition pending (t : Thread) : bool :=
  match t with
  | Update _ _ U_LockWait => true
  | _ => false
  end.

(** Two different goroutines are inside the calls at the same time. *)
Definition overlap (cf : Config) : Prop :=
  ∃ i j ti tj, i ≠ j ∧ threads cf !! i = Some ti ∧ threads cf !! j = Some tj
    ∧ inCritical ti = true ∧ inCritical tj = true.

(** One goroutine running a call from its first statement to its return,
    alone. *)
Fixpoint alone (fuel : nat) (t : Thread) (c : Cache) (m : RWMutex)
  : Thread * Cache * RWMutex :=
  match fuel with
  | O => (t, c, m)
  | S fuel' =>
      match stepThread t c m with
      | Some (t', c', m') => alone fuel' t' c' m'
      | None => (t, c, m)
      end
  end.

(** How many goroutines satisfy [p]. *)
Definition count (p : Thread → bool) (ts : list Thread) : nat :=
  sum_list (Nat.b2n ∘ p <$> ts).

(** The lock accounts for the goroutines inside the calls: as many readers
    as goroutines between [RLock] and [RUnlock], a writer exactly when one
    goroutine is between [Lock] and [Unlock], and then no reader and nobody
    waiting; somebody waiting exactly when one goroutine is inside [Lock]. *)
Definition lockInv (cf : Config) : Prop :=
  readers (mu cf) = count inRead (threads cf) ∧
  Nat.b2n (writer (mu cf)) = count inWrite (threads cf) ∧
  Nat.b2n (waiting (mu cf)) = count pending (threads cf) ∧
  (writer (mu cf) = true → readers (mu cf) = O ∧ waiting (mu cf) = false).

(** Before its first statement, or returned. *)
Definition outside (t : Thread) : Prop :=
  inCritical t = false ∧ pending t = false.

End RW.

(** ** Sample caches *)

Definition halfHour : time.Duration := 30 * time.Minute.

(** The production cache after a first request for Pune at instant 0. *)
Definition onePune : Cache := updateCache "Pune" (sample "Pune" 0) init.

(** The element that request allocated. *)
Definition puneElem : Element :=
  {| eid := 0; Value := {| city := "Pune"; itemData := sample "Pune" 0 |} |}.

(** The production cache after Pune at instant 0 and Delhi at instant 1:
    Delhi in front, Pune at the back. *)
Definition puneDelhi : Cache :=
  updateCache "Delhi" (sample "Delhi" 1) onePune.

(** A hundred different cities, requested one after the other: the
    production cache filled to its bound, [city0] least recently used. *)
Definition cityNo (n : nat) : string := "city" +:+ pretty n.

Definition firstRequests (n : nat) : list Op :=
  (λ i, Insert (cityNo i) (sample (cityNo i) (Z.of_nat i))) <$> seq 0 n.

Definition full : Cache := run init (firstRequests 100).

(** Pune inserted twice, then ninety-eight other cities and Delhi. *)
Definition puneTwice : list Op :=
  [Insert "Pune" (sample "Pune" 0); Insert "Pune" (sample "Pune" 1)].

Definition puneTwiceThenFull : list Op :=
  puneTwice ++ firstRequests 98 ++ [Insert "Delhi" (sample "Delhi" 200)].

(** A cache without entries. *)
Definition isEmpty (c : Cache) : Prop := data c = ∅ ∧ orderedList c = [].

(** Two requests for Pune arrive half an hour after it was cached; the
    first goroutine runs up to its [delete], then the second starts. *)
Definition racingStart : RW.Config :=
  {| RW.cache := onePune; RW.mu := RW.unlocked;
     RW.threads := [RW.Get halfHour "Pune" RW.G_RLock;
                    RW.Get halfHour "Pune" RW.G_RLock] |}.

Definition racingSchedule : list nat := [0; 0; 0; 0; 0; 1; 1]%nat.

(** The invariant as a check that can be run on a concrete cache. *)
Definition wfb (c : Cache) : bool :=
  bool_decide (NoDup (eid <$> orderedList c))
  && forallb (λ e, Nat.ltb (eid e) (nextElem c)) (orderedList c)
  && bool_decide
       (map_Forall (λ k e, e ∈ orderedList c ∧ city (Value e) = k) (data c)).

(** Two requests for Pune that both miss before either inserts: the four
    cache calls of the two handlers. *)
Definition racingRequests : list Op :=
  [Lookup 0 "Pune"; Lookup 0 "Pune";
   Insert "Pune" (sample "Pune" 0); Insert "Pune" (sample "Pune" 1)].

(** Closed facts about concrete caches, by evaluation. *)
Ltac evaluate :=
  first [ by vm_compute
        | by vm_compute; eexists
        | apply (bool_decide_unpack _); by vm_compute ].

(** ** Sequences of inserts *)

(** One [updateCache] per pair, in order. *)
Definition inserts (kvs : list (string * CityWeatherData)) : list Op :=
  (λ kv, Insert (fst kv) (snd kv)) <$> kvs.

(** ** The Weatherstack data source

    [fetchWeatherFromAPI] with what it reads from outside as arguments: the
    value of [WEATHERSTACK_API_KEY], the clock, and the answer of [http.Get]
    to each URL. Errors are carried as their messages. *)

(** What [io.ReadAll] and [json.Unmarshal] make of a response body; a parsed
    body gives [current.temperature] and [current.weather_descriptions]. *)
Inductive Body :=
| ReadFailed (err : string)
| Malformed (err : string)
| Parsed (Temperature : Z) (Weather_descriptions : list string).

(** What [http.Get] returns: an error, or a response with its [StatusCode],
    its [Status] line and its body. *)
Inductive HttpResult :=
| GetFailed (err : string)
| Response (StatusCode : Z) (Status : string) (body : Body).

(** [http.StatusOK], [http.StatusBadRequest],
    [http.StatusInternalServerError] *)
Definition StatusOK : Z := 200.
Definition StatusBadRequest : Z := 400.
Definition StatusInternalServerError : Z := 500.

(** The request URL, [fmt.Sprintf] with two [%s]. *)
Definition weatherstackURL (apiKey city : string) : string :=
  "http://api.weatherstack.com/current?access_key=" +:+ apiKey
  +:+ "&query=" +:+ city.

(** [func fetchWeatherFromAPI(city string) (CityWeatherData, error)] *)
Definition fetchWeatherFromAPI (now : time.Time) (apiKey : string)
    (httpGet : string → HttpResult) (k : string)
  : CityWeatherData + string :=
  if decide (apiKey = "") then inr "API key is missing"
  else
    match httpGet (weatherstackURL apiKey k) with
    | GetFailed err => inr err
    | Response code status body =>
        if decide (code ≠ StatusOK) then inr ("API error: " +:+ status)
        else
          match body with
          | ReadFailed err => inr err
          | Malformed err => inr err
          | Parsed temperature descriptions =>
              let desc :=
                match descriptions with
                | d :: _ => d
                | [] => "No description available"
                end in
              inl {| City := k; Temp := temperature; Desc := desc;
                     CacheTime := now |}
          end
    end.

(** [func getCityWeatherData(city string) (CityWeatherData, error)] of the
    Weatherstack-backed server. *)
Definition getCityWeatherData (now : time.Time) (apiKey : string)
    (httpGet : string → HttpResult) (k : string)
  : CityWeatherData + string :=
  match fetchWeatherFromAPI now apiKey httpGet k with
  | inr err => inr err
  | inl weatherData => inl weatherData
  end.

(** What a handler does with its [http.ResponseWriter]: it reports an error
    with [http.Error]; or it hands a record to the JSON encoder; or it hands
    a record to the encoder, the encoder fails, and it reports that with
    [http.Error]. *)
Inductive Written :=
| Error (msg : string) (code : Z)
| Encode (d : CityWeatherData)
| EncodeError (d : CityWeatherData) (msg : string) (code : Z).

(** The record handed to the encoder, if any. *)
Definition encoded (w : Written) : option CityWeatherData :=
  match w with
  | Error _ _ => None
  | Encode d => Some d
  | EncodeError d _ _ => Some d
  end.

(** The error reported with [http.Error], if any. *)
Definition reported (w : Written) : option (string * Z) :=
  match w with
  | Error msg code => Some (msg, code)
  | Encode _ => None
  | EncodeError _ msg code => Some (msg, code)
  end.

(** [func weatherHandler] of the Weatherstack-backed server. [now] is the
    clock at the lookup and [fetchNow] the clock at the fetch; [encodeErr]
    is the error of [json.NewEncoder(w).Encode] on a record, [None] for nil.
    The error of the encoder is looked at for a cached record only; for a
    fetched one it is ignored. *)
Definition weatherHandlerAPI (now fetchNow : time.Time) (apiKey : string)
    (httpGet : string → HttpResult)
    (encodeErr : CityWeatherData → option string) (k : string) (c : Cache)
  : Written * Cache :=
  if decide (k = "")
  then (Error "City parameter is required" StatusBadRequest, c)
  else
    let '(cachedWeatherData, found, c1) := getCachedWeatherData now k c in
    if found then
      match encodeErr cachedWeatherData with
      | Some err =>
          (EncodeError cachedWeatherData
                       ("Error encoding response: " +:+ err)
                       StatusInternalServerError, c1)
      | None => (Encode cachedWeatherData, c1)
      end
    else
      match getCityWeatherData fetchNow apiKey httpGet k with
      | inr err =>
          (Error ("Failed to fetch weather data: " +:+ err)
                 StatusInternalServerError, c1)
      | inl newData => (Encode newData, updateCache k newData c1)
      end.

Record ApiRequest := mkApiRequest {
  api_now : time.Time;
  api_fetchNow : time.Time;
  api_key : string;
  api_get : string → HttpResult;
  api_encode : CityWeatherData → option string;
  api_city : string
}.

Definition serveAPI (c : Cache) (r : ApiRequest) : Cache :=
  (weatherHandlerAPI (api_now r) (api_fetchNow r) (api_key r) (api_get r)
     (api_encode r) (api_city r) c).2.

Definition serveAllAPI (c : Cache) (rs : list ApiRequest) : Cache :=
  foldl serveAPI c rs.

(** A Weatherstack that knows Pune and answers 404 for everything else. *)
Definition onlyPune (url : string) : HttpResult :=
  if decide (url = weatherstackURL "secret" "Pune")
  then Response 200 "200 OK" (Parsed 15 ["Partly cloudy"])
  else Response 404 "404 Not Found" (Parsed 0 []).

(** ** Goroutines that have returned *)

Definition finished (t : RW.Thread) : bool :=
  match t with
  | RW.Get _ _ (RW.G_done _) => true
  | RW.Update _ _ RW.U_done => true
  | _ => false
  end.

(** An insert and a lookup of Pune started together; the insert has taken
    the lock. *)
Definition insertAndLookup : list RW.Thread :=
  [RW.Update "Pune" (sample "Pune" 0) RW.U_Lock;
   RW.Get 5 "Pune" RW.G_RLock].

(** Every record in the index is filed under its own, non-empty, city. *)
Definition keyed (c : Cache) : Prop :=
  ∀ k e, data c !! k = Some e → k ≠ "" ∧ City (itemData (Value e)) = k.

(** An encoder that never fails, and one that fails on every record. *)
Definition encodes (d : CityWeatherData) : option string := None.

Definition encodeFails (d : CityWeatherData) : option string :=
  Some "json: unsupported value".

(** Three requests to the Weatherstack-backed server half an hour apart:
    Pune, an unknown city, and the empty city. *)
Definition apiDay : list ApiRequest :=
  [ {| api_now := 0; api_fetchNow := 1; api_key := "secret";
       api_get := onlyPune; api_encode := encodes; api_city := "Pune" |};
    {| api_now := halfHour; api_fetchNow := halfHour + 1;
       api_key := "secret"; api_get := onlyPune; api_encode := encodes;
       api_city := "Atlantis" |};
    {| api_now := 2 * halfHour; api_fetchNow := 2 * halfHour + 1;
       api_key := "secret"; api_get := onlyPune; api_encode := encodes;
       api_city := "" |} ].

(** A request to the Weatherstack-backed server as a request to the common
    handler: the fetch, which does not depend on the cache, is done ahead. *)
Definition asRequest (r : ApiRequest) : Request :=
  {| req_now := api_now r; req_city := api_city r;
     req_fetched :=
       match getCityWeatherData (api_fetchNow r) (api_key r) (api_get r)
               (api_city r) with
       | inl d => Some d
       | inr _ => None
       end |}.

(** ** Facts about the list operations *)

Section golist_facts.
Implicit Types (e x : Element) (l : golist.List).

Lemma Remove_absent e l : eid e ∉ eid <$> l → golist.Remove e l = l.
Proof.
  induction l as [|x l IH]; [done|]; simpl.
  rewrite not_elem_of_cons. intros [Hne Hl].
  destruct (decide (eid x = eid e)); [congruence|]. by rewrite IH.
Qed.

Lemma Remove_length e l :
  eid e ∈ eid <$> l → S (length (golist.Remove e l)) = length l.
Proof.
  induction l as [|x l IH]; simpl; [by intros ?%elem_of_nil|].
  rewrite elem_of_cons. intros [Heq|Hin].
  - destruct (decide (eid x = eid e)); [done|congruence].
  - destruct (decide (eid x = eid e)); [done|]. simpl. by rewrite IH.
Qed.

Lemma Remove_length_le e l :
  (length (golist.Remove e l) ≤ length l)%nat.
Proof.
  induction l as [|x l IH]; simpl; [done|].
  destruct (decide (eid x = eid e)); simpl; lia.
Qed.

Lemma Remove_sublist e l : golist.Remove e l `sublist_of` l.
Proof.
  induction l as [|x l IH]; simpl; [done|].
  destruct (decide (eid x = eid e)).
  - by apply sublist_cons.
  - by apply sublist_skip.
Qed.

Lemma Remove_elem_of x e l : x ∈ golist.Remove e l → x ∈ l.
Proof. intros Hx. eapply elem_of_sublist; [done|apply Remove_sublist]. Qed.

Lemma Remove_NoDup e l :
  NoDup (eid <$> l) → NoDup (eid <$> golist.Remove e l).
Proof.
  intros Hnd. eapply sublist_NoDup; [done|].
  apply fmap_sublist, Remove_sublist.
Qed.

Lemma Remove_elem_of_iff x e l :
  NoDup (eid <$> l) →
  x ∈ golist.Remove e l ↔ x ∈ l ∧ eid x ≠ eid e.
Proof.
  induction l as [|y l IH]; simpl.
  - intros _. split; [by intros ?%elem_of_nil|by intros [?%elem_of_nil _]].
  - rewrite NoDup_cons. intros [Hy Hnd].
    destruct (decide (eid y = eid e)) as [Heq|Hne].
    + rewrite elem_of_cons. split.
      * intros Hx. split; [by right|]. intros Hxe. apply Hy.
        rewrite Heq, <- Hxe. by apply list_elem_of_fmap_2.
      * intros [[->|Hx] Hxe]; [congruence|done].
    + rewrite !elem_of_cons, IH by done. split.
      * intros [->|[Hx Hxe]]; [by split; [left|]|by split; [right|]].
      * intros [[->|Hx] Hxe]; [by left|by right].
Qed.

Lemma Remove_not_elem_of e l :
  NoDup (eid <$> l) → e ∉ golist.Remove e l.
Proof. intros Hnd. rewrite Remove_elem_of_iff by done. by intros [_ ?]. Qed.

Lemma Remove_head e l : golist.Remove e (e :: l) = l.
Proof. simpl. by rewrite decide_True. Qed.

(** Removing the back element of a list without repeated identities drops
    the last position. *)
Lemma Remove_back e l :
  NoDup (eid <$> (l ++ [e])) → golist.Remove e (l ++ [e]) = l.
Proof.
  induction l as [|y l IH]; simpl.
  - intros _. by rewrite decide_True.
  - rewrite NoDup_cons. intros [Hy Hnd].
    destruct (decide (eid y = eid e)) as [Heq|Hne].
    + exfalso. apply Hy. rewrite fmap_app, elem_of_app. right.
      simpl. rewrite Heq. by apply list_elem_of_singleton.
    + by rewrite IH.
Qed.

Lemma Back_Some l e : golist.Back l = Some e → ∃ l', l = l' ++ [e].
Proof.
  unfold golist.Back. intros H.
  destruct l as [|y l _] using rev_ind; [done|].
  rewrite last_snoc in H. injection H as ->. by exists l.
Qed.

Lemma Back_None l : golist.Back l = None → l = [].
Proof. unfold golist.Back. by intros ?%last_None. Qed.

Lemma member_true e l : golist.member e l = true ↔ eid e ∈ eid <$> l.
Proof. unfold golist.member. apply bool_decide_eq_true. Qed.

Lemma member_elem_of e l : e ∈ l → golist.member e l = true.
Proof. intros H. apply member_true. by apply list_elem_of_fmap_2. Qed.

(** An element is determined by its identity in a list without repeated
    identities. *)
Lemma eid_inj_in x e l :
  NoDup (eid <$> l) → x ∈ l → e ∈ l → eid x = eid e → x = e.
Proof.
  induction l as [|y l IH]; simpl; [by intros _ ?%elem_of_nil|].
  rewrite NoDup_cons, !elem_of_cons. intros [Hy Hnd] [->|Hx] [->|He] Heq.
  - done.
  - exfalso. apply Hy. rewrite Heq. by apply list_elem_of_fmap_2.
  - exfalso. apply Hy. rewrite <- Heq. by apply list_elem_of_fmap_2.
  - by apply IH.
Qed.

Lemma MoveToFront_present e l :
  e ∈ l → golist.MoveToFront e l = e :: golist.Remove e l.
Proof. intros He. unfold golist.MoveToFront. by rewrite member_elem_of. Qed.

Lemma MoveToFront_elem_of x e l :
  NoDup (eid <$> l) → e ∈ l → x ∈ golist.MoveToFront e l ↔ x ∈ l.
Proof.
  intros Hnd He. rewrite MoveToFront_present, elem_of_cons by done.
  rewrite Remove_elem_of_iff by done. split.
  - intros [->|[Hx _]]; done.
  - intros Hx. destruct (decide (eid x = eid e)) as [Heq|Hne]; [|by right].
    left. by eapply eid_inj_in.
Qed.

Lemma MoveToFront_length e l :
  length (golist.MoveToFront e l) = length l.
Proof.
  unfold golist.MoveToFront. destruct (golist.member e l) eqn:Hm; [|done].
  simpl. apply Remove_length. by apply member_true.
Qed.

Lemma MoveToFront_NoDup e l :
  NoDup (eid <$> l) → NoDup (eid <$> golist.MoveToFront e l).
Proof.
  intros Hnd. unfold golist.MoveToFront.
  destruct (golist.member e l) eqn:Hm; [|done].
  rewrite fmap_cons. apply NoDup_cons. split; [|by apply Remove_NoDup].
  intros (x & Heq & Hx)%list_elem_of_fmap.
  apply Remove_elem_of_iff in Hx; [|done]. destruct Hx as [_ Hx].
  by apply Hx.
Qed.

(** Moving the front element to the front changes nothing. *)
Lemma MoveToFront_front e l : golist.MoveToFront e (e :: l) = e :: l.
Proof.
  rewrite MoveToFront_present by apply list_elem_of_here.
  by rewrite Remove_head.
Qed.

End golist_facts.

(** ** The invariant is kept *)

(** The unfolding of [getCachedWeatherData] through the two named
    intermediate states. *)
Lemma getCachedWeatherData_unfold now k c :
  getCachedWeatherData now k c =
  match data c !! k with
  | None => (zeroCityWeatherData, false, c)
  | Some elem =>
      if bool_decide
           (time.Since now (CacheTime (itemData (Value elem))) < expiry c)
      then (itemData (Value elem), true, promoted elem c)
      else (zeroCityWeatherData, false, dropExpired k elem (promoted elem c))
  end.
Proof. reflexivity. Qed.

Section invariant.
Implicit Types (c : Cache) (e : Element) (k : string).

Lemma wf_newCache size ttl : wf (newCache size ttl).
Proof.
  split; simpl.
  - apply NoDup_nil_2.
  - by intros e ?%elem_of_nil.
  - intros k e. by rewrite lookup_empty.
Qed.

Lemma wf_distinct c e e' :
  wf c → e ∈ orderedList c → e' ∈ orderedList c → eid e = eid e' → e = e'.
Proof. intros [Hnd _ _]. by apply eid_inj_in. Qed.

Lemma wf_promoted c k e : wf c → data c !! k = Some e → wf (promoted e c).
Proof.
  intros Hwf Hk. pose proof Hwf as [Hnd Hfr Hix].
  destruct (Hix _ _ Hk) as [He _].
  split; simpl.
  - by apply MoveToFront_NoDup.
  - intros x Hx. apply Hfr. by apply (MoveToFront_elem_of x e).
  - intros k' x Hx. destruct (Hix _ _ Hx) as [Hxl Hxc].
    split; [|done]. by apply MoveToFront_elem_of.
Qed.

Lemma wf_dropExpired c k e :
  wf c → data c !! k = Some e → wf (dropExpired k e c).
Proof.
  intros Hwf Hk. pose proof Hwf as [Hnd Hfr Hix].
  split; simpl.
  - by apply Remove_NoDup.
  - intros x Hx. apply Hfr. by eapply Remove_elem_of.
  - intros k' x. rewrite lookup_delete_Some. intros [Hne Hx].
    destruct (Hix _ _ Hx) as [Hxl Hxc]. split; [|done].
    apply Remove_elem_of_iff; [done|]. split; [done|].
    intros Heq. apply Hne.
    destruct (Hix _ _ Hk) as [Hel Hec].
    assert (x = e) as -> by by eapply wf_distinct. congruence.
Qed.

Lemma wf_evictOldest c : wf c → wf (evictOldest c).
Proof.
  intros Hwf. pose proof Hwf as [Hnd Hfr Hix]. unfold evictOldest.
  destruct (golist.Back (orderedList c)) as [oldest|] eqn:Hb; [|done].
  destruct (Back_Some _ _ Hb) as [l' Hl].
  assert (oldest ∈ orderedList c) as Hol.
  { rewrite Hl, elem_of_app. right. by apply list_elem_of_singleton. }
  split; simpl.
  - by apply Remove_NoDup.
  - intros x Hx. apply Hfr. by eapply Remove_elem_of.
  - intros k x. rewrite lookup_delete_Some. intros [Hne Hx].
    destruct (Hix _ _ Hx) as [Hxl Hxc]. split; [|done].
    apply Remove_elem_of_iff; [done|]. split; [done|].
    intros Heq. apply Hne.
    assert (x = oldest) as -> by by eapply wf_distinct. congruence.
Qed.

Lemma wf_updateCache c k d : wf c → wf (updateCache k d c).
Proof.
  intros Hwf. unfold updateCache.
  set (c1 := if bool_decide _ then evictOldest c else c).
  assert (wf c1) as [Hnd Hfr Hix].
  { subst c1. case_bool_decide; [by apply wf_evictOldest|done]. }
  split; simpl.
  - apply NoDup_cons. split; [|done].
    intros (x & Heq & Hx)%list_elem_of_fmap. apply Hfr in Hx. lia.
  - intros x [->|Hx]%elem_of_cons; simpl; [lia|].
    apply Hfr in Hx. lia.
  - intros k' x. rewrite lookup_insert_Some.
    intros [[<- <-]|[Hne Hx]].
    + split; [apply list_elem_of_here|done].
    + destruct (Hix _ _ Hx) as [Hxl Hxc]. split; [by right|done].
Qed.

Lemma wf_getCachedWeatherData now k c :
  wf c → wf (getCachedWeatherData now k c).2.
Proof.
  intros Hwf. rewrite getCachedWeatherData_unfold.
  destruct (data c !! k) as [e|] eqn:Hk; [|done].
  case_bool_decide; simpl.
  - by eapply wf_promoted.
  - apply wf_dropExpired; [by eapply wf_promoted|done].
Qed.

Lemma wf_step c o : wf c → wf (step c o).
Proof.
  destruct o as [now k|k v];
    [exact (wf_getCachedWeatherData now k c)|exact (wf_updateCache c k v)].
Qed.

Lemma wf_run c ops : wf c → wf (run c ops).
Proof.
  unfold run. revert c.
  induction ops as [|o ops IH]; intros c Hwf; simpl; [done|].
  by apply IH, wf_step.
Qed.

Lemma wfb_wf c : wfb c = true → wf c.
Proof.
  unfold wfb. rewrite !andb_true_iff, !bool_decide_eq_true, forallb_forall.
  intros [[Hnd Hfr] Hix]. split; [done| |].
  - intros e He. apply Nat.ltb_lt, Hfr. by apply list_elem_of_In.
  - intros k e Hk. by apply (Hix k e).
Qed.

End invariant.

(** ** The settings never change *)

Section settings.
Implicit Types (c : Cache).

Lemma maxSize_evictOldest c : maxSize (evictOldest c) = maxSize c.
Proof. unfold evictOldest. by destruct (golist.Back _). Qed.

Lemma maxSize_updateCache k d c : maxSize (updateCache k d c) = maxSize c.
Proof.
  unfold updateCache. case_bool_decide; simpl; [|done].
  apply maxSize_evictOldest.
Qed.

Lemma maxSize_getCachedWeatherData now k c :
  maxSize (getCachedWeatherData now k c).2 = maxSize c.
Proof.
  rewrite getCachedWeatherData_unfold.
  destruct (data c !! k); [|done]. by case_bool_decide.
Qed.

Lemma maxSize_step c o : maxSize (step c o) = maxSize c.
Proof.
  destruct o as [now k|k v];
    [exact (maxSize_getCachedWeatherData now k c)
    |exact (maxSize_updateCache k v c)].
Qed.

Lemma maxSize_run c ops : maxSize (run c ops) = maxSize c.
Proof.
  unfold run. revert c. induction ops as [|o ops IH]; intros c; [done|].
  simpl. by rewrite IH, maxSize_step.
Qed.

End settings.

(** ** Capacity *)

Section capacity.
Implicit Types (c : Cache).

(** What [evictOldest] does to the length of the sequence. *)
Lemma listSize_evictOldest c :
  listSize (evictOldest c) = Z.max 0 (listSize c - 1).
Proof.
  unfold listSize, golist.Len, evictOldest.
  destruct (golist.Back (orderedList c)) as [oldest|] eqn:Hb; simpl.
  - destruct (Back_Some _ _ Hb) as [l' Hl].
    assert (eid oldest ∈ eid <$> orderedList c) as Hin.
    { apply list_elem_of_fmap_2. rewrite Hl, elem_of_app. right.
      by apply list_elem_of_singleton. }
    apply Remove_length in Hin. lia.
  - apply Back_None in Hb. rewrite Hb. simpl. lia.
Qed.

Lemma listSize_nonneg c : 0 ≤ listSize c.
Proof. unfold listSize, golist.Len. lia. Qed.

(** What [updateCache] does to the length of the sequence: one more below
    the bound, the same at or above it (one more on an empty sequence). *)
Lemma listSize_updateCache k d c :
  listSize (updateCache k d c) =
  if bool_decide (maxSize c ≤ listSize c)
  then Z.max 1 (listSize c) else listSize c + 1.
Proof.
  unfold updateCache. fold (listSize c).
  case_bool_decide; simpl.
  - pose proof (listSize_evictOldest c) as He.
    unfold listSize, golist.Len in *. simpl. lia.
  - unfold listSize, golist.Len. simpl. lia.
Qed.

Lemma listSize_getCachedWeatherData now k c :
  listSize (getCachedWeatherData now k c).2 ≤ listSize c.
Proof.
  rewrite getCachedWeatherData_unfold. unfold listSize, golist.Len.
  destruct (data c !! k) as [e|]; [|done].
  case_bool_decide; simpl.
  - by rewrite MoveToFront_length.
  - pose proof (Remove_length_le e (golist.MoveToFront e (orderedList c))).
    rewrite MoveToFront_length in *. lia.
Qed.

(** The bound every operation keeps: [maxSize], or one where [maxSize] is
    not positive. *)
Lemma bound_step c o :
  listSize c ≤ Z.max 1 (maxSize c) →
  listSize (step c o) ≤ Z.max 1 (maxSize (step c o)).
Proof.
  intros Hb. rewrite maxSize_step. destruct o as [now k|k v]; cbn [step].
  - pose proof (listSize_getCachedWeatherData now k c). lia.
  - rewrite listSize_updateCache. case_bool_decide; lia.
Qed.

Lemma bound_run c ops :
  listSize c ≤ Z.max 1 (maxSize c) →
  listSize (run c ops) ≤ Z.max 1 (maxSize (run c ops)).
Proof.
  unfold run. revert c. induction ops as [|o ops IH]; intros c Hb; [done|].
  simpl. by apply IH, bound_step.
Qed.

(** The index never has more entries than the sequence has elements. *)
Lemma indexSize_le_listSize c : wf c → indexSize c ≤ listSize c.
Proof.
  intros [Hnd Hfr Hix]. unfold indexSize, listSize, golist.Len.
  apply inj_le.
  rewrite <- length_map_to_list, <- (length_fmap snd).
  apply submseteq_length, NoDup_submseteq.
  - apply NoDup_fmap_2_strong; [|apply NoDup_map_to_list].
    intros [k1 e1] [k2 e2] H1%elem_of_map_to_list H2%elem_of_map_to_list.
    simpl. intros <-. f_equal.
    destruct (Hix _ _ H1) as [_ <-]. by destruct (Hix _ _ H2) as [_ <-].
  - intros e ([k e'] & -> & Hke%elem_of_map_to_list)%list_elem_of_fmap.
    simpl. by destruct (Hix _ _ Hke).
Qed.

End capacity.

(** ** When index and sequence are in step *)

Section synced_facts.
Implicit Types (c : Cache) (e : Element) (k : string).

Lemma synced_newCache size ttl : synced (newCache size ttl).
Proof. by intros e ?%elem_of_nil. Qed.

Lemma synced_promoted c k e :
  wf c → data c !! k = Some e → synced c → synced (promoted e c).
Proof.
  intros [Hnd _ Hix] Hk Hs x Hx. simpl in *. apply Hs.
  destruct (Hix _ _ Hk) as [He _]. by apply (MoveToFront_elem_of x e).
Qed.

Lemma synced_dropExpired c k e :
  wf c → data c !! k = Some e → synced c → synced (dropExpired k e c).
Proof.
  intros [Hnd _ Hix] Hk Hs x Hx. simpl in *.
  apply Remove_elem_of_iff in Hx as [Hx Hne]; [|done].
  rewrite lookup_delete_ne; [by apply Hs|].
  intros Heq. apply Hs in Hx. rewrite <- Heq in Hx. congruence.
Qed.

Lemma synced_getCachedWeatherData now k c :
  wf c → synced c → synced (getCachedWeatherData now k c).2.
Proof.
  intros Hwf Hs. rewrite getCachedWeatherData_unfold.
  destruct (data c !! k) as [e|] eqn:Hk; [|done].
  case_bool_decide; simpl.
  - by eapply synced_promoted.
  - apply synced_dropExpired; [by eapply wf_promoted|done|].
    by eapply synced_promoted.
Qed.

Lemma synced_evictOldest c : wf c → synced c → synced (evictOldest c).
Proof.
  intros [Hnd _ Hix] Hs. unfold evictOldest.
  destruct (golist.Back (orderedList c)) as [oldest|] eqn:Hb; [|done].
  destruct (Back_Some _ _ Hb) as [l' Hl].
  assert (oldest ∈ orderedList c) as Hol.
  { rewrite Hl, elem_of_app. right. by apply list_elem_of_singleton. }
  intros x Hx. simpl in *.
  apply Remove_elem_of_iff in Hx as [Hx Hne]; [|done].
  rewrite lookup_delete_ne; [by apply Hs|].
  intros Heq. apply Hs in Hx, Hol. rewrite Heq in Hol. congruence.
Qed.

Lemma absent_evictOldest c k :
  data c !! k = None → data (evictOldest c) !! k = None.
Proof.
  intros Hk. unfold evictOldest.
  destruct (golist.Back (orderedList c)); [|done]. simpl.
  rewrite lookup_delete_None. by right.
Qed.

(** [updateCache] keeps the two in step when the key is new. *)
Lemma synced_updateCache c k d :
  wf c → synced c → data c !! k = None → synced (updateCache k d c).
Proof.
  intros Hwf Hs Hk. unfold updateCache.
  set (c1 := if bool_decide _ then evictOldest c else c).
  assert (synced c1 ∧ data c1 !! k = None) as [Hs1 Hk1].
  { subst c1. case_bool_decide; [|done].
    split; [by apply synced_evictOldest|by apply absent_evictOldest]. }
  intros x. simpl. intros [->|Hx]%elem_of_cons; simpl.
  - by rewrite lookup_insert_eq.
  - rewrite lookup_insert_ne; [by apply Hs1|].
    intros Heq. apply Hs1 in Hx. congruence.
Qed.

(** After a miss the key is not in the index. *)
Lemma miss_absent now k c :
  (getCachedWeatherData now k c).1.2 = false →
  data (getCachedWeatherData now k c).2 !! k = None.
Proof.
  rewrite getCachedWeatherData_unfold.
  destruct (data c !! k) as [e|] eqn:Hk; [|done].
  case_bool_decide; simpl; [done|]. intros _. by rewrite lookup_delete_eq.
Qed.

(** In step, the sequence names every key once, the index holds exactly
    the keys of the sequence, and both have the same size. *)
Lemma synced_NoDup c : wf c → synced c → NoDup (recency c).
Proof.
  intros [Hnd _ _] Hs. unfold recency.
  apply NoDup_fmap_2_strong; [|by eapply NoDup_fmap_1].
  intros x y Hx%Hs Hy%Hs Heq. rewrite Heq in Hx. congruence.
Qed.

Lemma wf_keys_subset c k : wf c → k ∈ indexKeys c → k ∈ recency c.
Proof.
  intros [_ _ Hix]. unfold indexKeys, recency.
  rewrite elem_of_dom. intros [e He].
  destruct (Hix _ _ He) as [Hel <-].
  by apply (list_elem_of_fmap_2 (λ e, city (Value e))).
Qed.

Lemma synced_keys c k : wf c → synced c → k ∈ indexKeys c ↔ k ∈ recency c.
Proof.
  intros Hwf Hs. split; [by apply wf_keys_subset|].
  unfold indexKeys, recency.
  intros (e & -> & He)%list_elem_of_fmap. apply elem_of_dom.
  exists e. by apply Hs.
Qed.

Lemma synced_size c : wf c → synced c → indexSize c = listSize c.
Proof.
  intros Hwf Hs. apply Z.le_antisymm; [by apply indexSize_le_listSize|].
  destruct Hwf as [Hnd _ _]. unfold indexSize, listSize, golist.Len.
  apply inj_le.
  rewrite <- length_map_to_list, <- (length_fmap snd).
  apply submseteq_length, NoDup_submseteq; [by eapply NoDup_fmap_1|].
  intros e He%Hs. apply list_elem_of_fmap.
  exists (city (Value e), e). split; [done|]. by apply elem_of_map_to_list.
Qed.

End synced_facts.

(** ** Sizes after the removal of an expired entry *)

Lemma indexSize_delete k e (c : Cache) :
  data c !! k = Some e →
  Z.of_nat (size (delete k (data c))) = indexSize c - 1.
Proof.
  intros Hk. unfold indexSize.
  rewrite <- (insert_delete_id (data c) k e) at 2 by done.
  rewrite map_size_insert_None by apply lookup_delete_eq. lia.
Qed.

Lemma dropExpired_promoted_list e (c : Cache) :
  e ∈ orderedList c →
  orderedList (dropExpired (city (Value e)) e (promoted e c)) =
  golist.Remove e (orderedList c).
Proof.
  intros He. simpl. rewrite MoveToFront_present by done. apply Remove_head.
Qed.

Lemma time_Since_same now : time.Since now now = 0.
Proof. unfold time.Since, time.Sub. by rewrite Z.sub_diag. Qed.

(** Inside the range of [Duration] the age is the plain difference. *)
Lemma time_Since_exact now t :
  time.minDuration ≤ now - t ≤ time.maxDuration →
  time.Since now t = now - t.
Proof.
  intros H. unfold time.Since, time.Sub.
  destruct (Z.ltb_spec (now - t) time.minDuration); [lia|].
  destruct (Z.ltb_spec time.maxDuration (now - t)); [lia|done].
Qed.

(** * The claims of the specification *)

(** C7. For a key absent from the index, [getCachedWeatherData] returns the
    zero value and [false] and gives back the very same cache: sizes, entries
    and the position of every key in the recency sequence are unchanged. *)
Theorem lookup_absent_unchanged now k (c : Cache) :
  data c !! k = None →
  getCachedWeatherData now k c = (zeroCityWeatherData, false, c).
Proof. intros Hk. rewrite getCachedWeatherData_unfold. by rewrite Hk. Qed.

Lemma lookup_absent_unchanged_witness :
  data onePune !! "Delhi" = None ∧
  getCachedWeatherData 5 "Delhi" onePune
  = (zeroCityWeatherData, false, onePune).
Proof.
  split; [reflexivity|].
  apply (lookup_absent_unchanged 5 "Delhi" onePune). reflexivity.
Defined.

(** C6. For a key present in the index of a well-formed cache, with [age]
    the value of [time.Since] on the entry's [CacheTime]: when [age < expiry]
    the lookup returns the entry's data and [true]; when [age >= expiry] it
    returns the zero value and [false], the key is gone from the index and
    the element from the recency sequence, and both sizes are one less. *)
Theorem lookup_present now k e (c : Cache) :
  wf c →
  data c !! k = Some e →
  let age := time.Since now (CacheTime (itemData (Value e))) in
  let r := getCachedWeatherData now k c in
  (age < expiry c → fst r = (itemData (Value e), true)) ∧
  (expiry c ≤ age →
     fst r = (zeroCityWeatherData, false) ∧
     data (snd r) !! k = None ∧
     (e ∉ orderedList (snd r)) ∧
     (synced c → k ∉ recency (snd r)) ∧
     indexSize (snd r) = indexSize c - 1 ∧
     listSize (snd r) = listSize c - 1).
Proof.
  intros Hwf Hk age r. subst r. rewrite getCachedWeatherData_unfold, Hk.
  fold age. split; intros Hage.
  - by rewrite bool_decide_eq_true_2.
  - rewrite bool_decide_eq_false_2 by lia.
    pose proof Hwf as [Hnd _ Hix]. destruct (Hix _ _ Hk) as [He Hc].
    cbn [fst snd]. split; [done|]. split; [apply lookup_delete_eq|].
    assert (orderedList (dropExpired k e (promoted e c))
            = golist.Remove e (orderedList c)) as Hl.
    { rewrite <- Hc. by apply dropExpired_promoted_list. }
    split; [rewrite Hl; by apply Remove_not_elem_of|].
    split.
    + intros Hs (x & Hx & Hxl)%list_elem_of_fmap.
      assert (synced (dropExpired k e (promoted e c))) as Hs'.
      { apply synced_dropExpired; [by eapply wf_promoted|done|].
        by eapply synced_promoted. }
      apply Hs' in Hxl. rewrite <- Hx in Hxl. simpl in Hxl.
      by rewrite lookup_delete_eq in Hxl.
    + split; [exact (indexSize_delete k e c Hk)|].
      unfold listSize, golist.Len. rewrite Hl.
      assert (eid e ∈ eid <$> orderedList c) as Hin
        by by apply list_elem_of_fmap_2.
      apply Remove_length in Hin. lia.
Qed.

Lemma lookup_present_witness :
  fst (getCachedWeatherData (10 * time.Minute) "Pune" onePune)
  = (sample "Pune" 0, true)
  ∧ fst (getCachedWeatherData halfHour "Pune" onePune)
    = (zeroCityWeatherData, false)
  ∧ indexSize (snd (getCachedWeatherData halfHour "Pune" onePune))
    = indexSize onePune - 1.
Proof.
  assert (wf onePune) as Hwf by (apply wfb_wf; vm_compute; reflexivity).
  assert (data onePune !! "Pune" = Some puneElem) as Hk by reflexivity.
  split; [|split].
  - apply (lookup_present (10 * time.Minute) "Pune" puneElem onePune Hwf Hk).
    vm_compute. reflexivity.
  - apply (lookup_present halfHour "Pune" puneElem onePune Hwf Hk).
    vm_compute. discriminate.
  - apply (lookup_present halfHour "Pune" puneElem onePune Hwf Hk).
    vm_compute. discriminate.
Defined.

(** C8. For a key present in the index, [getCachedWeatherData] moves the
    key's element to the front before it looks at the age, and whatever the
    age is. Followed statement by statement (one goroutine, from [RLock]):
    after the lock, the index read and [MoveToFront] the goroutine is about
    to compare, and the element is at the front, the others behind it in
    their old order and the length the same; the fourth step is the
    comparison. A hit returns that state. On an expired entry the fifth step
    unlinks the element from it, with the key still in the index, and the
    [delete] comes last. *)
Theorem lookup_promotes_first now k e (c : Cache) :
  wf c →
  data c !! k = Some e →
  let age := time.Since now (CacheTime (itemData (Value e))) in
  let start := RW.Get now k RW.G_RLock in
  let held := {| RW.readers := 1; RW.writer := false; RW.waiting := false |} in
  let front := set_orderedList (e :: golist.Remove e (orderedList c)) c in
  let removed := set_orderedList (golist.Remove e (orderedList c)) c in
  RW.alone 3 start c RW.unlocked = (RW.Get now k (RW.G_check e), front, held) ∧
  listSize front = listSize c ∧
  RW.alone 4 start c RW.unlocked =
    (RW.Get now k
       (if bool_decide (age < expiry c)
        then RW.G_RUnlock (itemData (Value e), true)
        else RW.G_Remove e),
     front, held) ∧
  (age < expiry c →
     getCachedWeatherData now k c = (itemData (Value e), true, front)) ∧
  (expiry c ≤ age →
     RW.alone 5 start c RW.unlocked = (RW.Get now k RW.G_delete, removed, held) ∧
     (e ∉ orderedList removed) ∧
     data removed !! k = Some e ∧
     listSize removed = listSize c - 1 ∧
     getCachedWeatherData now k c =
       (zeroCityWeatherData, false, set_data (delete k (data c)) removed)).
Proof.
  intros Hwf Hk age start held front removed.
  pose proof Hwf as [Hnd _ Hix]. destruct (Hix _ _ Hk) as [He _].
  assert (golist.MoveToFront e (orderedList c)
          = e :: golist.Remove e (orderedList c)) as Hmove
    by by apply MoveToFront_present.
  assert (S (length (golist.Remove e (orderedList c)))
          = length (orderedList c)) as Hlen.
  { apply Remove_length. by apply list_elem_of_fmap_2. }
  assert (RW.alone 3 start c RW.unlocked
          = (RW.Get now k (RW.G_check e), front, held)) as H3.
  { subst start front. cbn. rewrite Hk. cbn. by rewrite Hmove. }
  split; [done|].
  split; [unfold listSize, golist.Len; simpl; lia|].
  split.
  { subst start front. cbn. rewrite Hk. cbn. rewrite Hmove. fold age.
    by case_bool_decide. }
  split.
  - intros Hage. rewrite getCachedWeatherData_unfold, Hk.
    fold age. rewrite bool_decide_eq_true_2 by done.
    unfold promoted. by rewrite Hmove.
  - intros Hage. split.
    { subst start removed. cbn. rewrite Hk. cbn. rewrite Hmove. fold age.
      rewrite bool_decide_eq_false_2 by lia. cbn.
      by rewrite decide_True. }
    split; [by apply Remove_not_elem_of|]. split; [done|].
    split; [unfold listSize, golist.Len; simpl; lia|].
    rewrite getCachedWeatherData_unfold, Hk. fold age.
    rewrite bool_decide_eq_false_2 by lia.
    unfold dropExpired, promoted. rewrite Hmove. simpl.
    by rewrite decide_True.
Qed.

Lemma lookup_promotes_first_witness :
  recency puneDelhi = ["Delhi"; "Pune"] ∧
  expiry puneDelhi
  ≤ time.Since halfHour (CacheTime (itemData (Value puneElem))) ∧
  ∃ c3 m3,
    RW.alone 3 (RW.Get halfHour "Pune" RW.G_RLock) puneDelhi RW.unlocked
    = (RW.Get halfHour "Pune" (RW.G_check puneElem), c3, m3) ∧
    recency c3 = ["Pune"; "Delhi"] ∧
    data c3 !! "Pune" = Some puneElem.
Proof.
  assert (wf puneDelhi) as Hwf by (apply wfb_wf; vm_compute; reflexivity).
  assert (data puneDelhi !! "Pune" = Some puneElem) as Hk by reflexivity.
  split; [reflexivity|]. split; [vm_compute; discriminate|].
  destruct (lookup_promotes_first halfHour "Pune" puneElem puneDelhi Hwf Hk)
    as (H3 & _).
  eexists _, _. split; [exact H3|]. split; reflexivity.
Defined.

(** The element [updateCache] allocates. *)
Lemma updateCache_front k v (c : Cache) :
  ∃ e l,
    Value e = {| city := k; itemData := v |} ∧
    orderedList (updateCache k v c) = e :: l ∧
    data (updateCache k v c) !! k = Some e.
Proof.
  unfold updateCache. simpl. eexists _, _.
  split; [|split]; [|done|by rewrite lookup_insert_eq]. done.
Qed.

Lemma expiry_evictOldest (c : Cache) : expiry (evictOldest c) = expiry c.
Proof. unfold evictOldest. by destruct (golist.Back _). Qed.

Lemma expiry_updateCache k d (c : Cache) :
  expiry (updateCache k d c) = expiry c.
Proof.
  unfold updateCache. case_bool_decide; simpl; [|done].
  apply expiry_evictOldest.
Qed.

(** A lookup that finds the key's element at the front and young enough
    returns its data and leaves the cache as it is. *)
Lemma lookup_front_hit now k e l (c : Cache) :
  data c !! k = Some e →
  orderedList c = e :: l →
  time.Since now (CacheTime (itemData (Value e))) < expiry c →
  getCachedWeatherData now k c = (itemData (Value e), true, c).
Proof.
  intros Hk Hl Hage. rewrite getCachedWeatherData_unfold, Hk.
  rewrite bool_decide_eq_true_2 by done. f_equal.
  unfold promoted. rewrite Hl, MoveToFront_front, <- Hl. by destruct c.
Qed.

(** Right after [updateCache k v] a lookup of [k] hits exactly when [v] is
    young enough by its own [CacheTime]: the cache does not stamp entries,
    the data source does. *)
Lemma lookup_after_insert_young now k v (c : Cache) :
  time.Since now (CacheTime v) < expiry c →
  getCachedWeatherData now k (updateCache k v c)
  = (v, true, updateCache k v c).
Proof.
  intros Hage.
  destruct (updateCache_front k v c) as (e & l & Hv & Hl & Hk).
  rewrite (lookup_front_hit now k e l); [by rewrite Hv|done|done|].
  by rewrite Hv, expiry_updateCache.
Qed.

Lemma lookup_after_insert_old now k v (c : Cache) :
  expiry c ≤ time.Since now (CacheTime v) →
  fst (getCachedWeatherData now k (updateCache k v c))
  = (zeroCityWeatherData, false).
Proof.
  intros Hage.
  destruct (updateCache_front k v c) as (e & l & Hv & Hl & Hk).
  rewrite getCachedWeatherData_unfold, Hk, Hv, expiry_updateCache. simpl.
  by rewrite bool_decide_eq_false_2 by lia.
Qed.

(** C10, as stated, on the production cache: Pune is inserted with a record
    stamped at instant 0 and looked up at once, insert and lookup both half
    an hour later and [expiry] positive; the lookup misses. [updateCache]
    does not stamp the entry, the age is that of the record. *)
Lemma insert_does_not_stamp :
  0 < expiry init ∧
  fst (getCachedWeatherData halfHour "Pune"
         (updateCache "Pune" (sample "Pune" 0) init))
  = (zeroCityWeatherData, false).
Proof. split; reflexivity. Qed.

(** C10, amended. Right after [updateCache k v], on any cache, the new
    element is at the front of the recency sequence and the index maps [k]
    to it. A lookup of [k] made then returns [v] and [true], and leaves the
    cache as it is, when the age of [v] by its own [CacheTime] is below
    [expiry]; otherwise it returns the zero value and [false]. In particular
    it returns [v] and [true] when [v] was stamped at the instant of the
    lookup and [expiry] is positive. *)
Theorem lookup_after_insert now k v (c : Cache) :
  let c' := updateCache k v c in
  let age := time.Since now (CacheTime v) in
  (∃ e, golist.Front (orderedList c') = Some e ∧
        data c' !! k = Some e ∧
        Value e = {| city := k; itemData := v |}) ∧
  (age < expiry c → getCachedWeatherData now k c' = (v, true, c')) ∧
  (expiry c ≤ age →
     fst (getCachedWeatherData now k c') = (zeroCityWeatherData, false)) ∧
  (0 < expiry c → CacheTime v = now →
     getCachedWeatherData now k c' = (v, true, c')).
Proof.
  intros c' age. subst c' age. split.
  { destruct (updateCache_front k v c) as (e & l & Hv & Hl & Hk).
    exists e. by rewrite Hl. }
  split; [apply lookup_after_insert_young|].
  split; [apply lookup_after_insert_old|].
  intros Hexp Hnow. apply lookup_after_insert_young.
  by rewrite Hnow, time_Since_same.
Qed.

Lemma lookup_after_insert_witness :
  0 < expiry onePune ∧
  getCachedWeatherData 7 "Delhi" (updateCache "Delhi" (sample "Delhi" 7) onePune)
  = (sample "Delhi" 7, true, updateCache "Delhi" (sample "Delhi" 7) onePune).
Proof.
  split; [reflexivity|].
  apply (lookup_after_insert 7 "Delhi" (sample "Delhi" 7) onePune);
    reflexivity.
Defined.

(** C3. Starting from the empty cache with a positive [maxSize], after each
    operation of any sequence of lookups and inserts (that is, after every
    prefix of it) neither the recency sequence nor the index holds more than
    [maxSize] entries. *)
Theorem capacity_invariant size ttl (ops : list Op) (n : nat) :
  0 < size →
  let c := run (newCache size ttl) (take n ops) in
  listSize c ≤ maxSize c ∧ indexSize c ≤ maxSize c.
Proof.
  intros Hpos c.
  assert (listSize c ≤ maxSize c) as Hl.
  { assert (listSize c ≤ Z.max 1 (maxSize c)) as Hb.
    { apply bound_run. unfold listSize, golist.Len. simpl. lia. }
    assert (maxSize c = size) as Hm by apply maxSize_run. lia. }
  split; [done|].
  etrans; [apply indexSize_le_listSize|done].
  apply wf_run, wf_newCache.
Qed.

Lemma capacity_invariant_witness :
  0 < 100 ∧
  listSize (run (newCache 100 halfHour) (take 2 puneTwiceThenFull)) ≤ 100.
Proof.
  split; [lia|].
  apply (capacity_invariant 100 halfHour puneTwiceThenFull 2). lia.
Defined.

(** ** What the callers' discipline gives

    [weatherHandler] calls [updateCache] only after a miss, so, one request
    after the other, never for a key of the index. Under that discipline the
    index and the recency sequence stay in step. *)

Lemma serve_wf (c : Cache) r : wf c → wf (serve c r).
Proof.
  intros Hwf. unfold serve, weatherHandler.
  destruct (decide (req_city r = "")); [done|].
  pose proof (wf_getCachedWeatherData (req_now r) (req_city r) c Hwf) as H1.
  destruct (getCachedWeatherData (req_now r) (req_city r) c)
    as [[d found] c1]. simpl in H1.
  destruct found; [done|]. destruct (req_fetched r); [|done].
  by apply wf_updateCache.
Qed.

Lemma serve_synced (c : Cache) r : wf c → synced c → synced (serve c r).
Proof.
  intros Hwf Hs. unfold serve, weatherHandler.
  destruct (decide (req_city r = "")); [done|].
  pose proof (wf_getCachedWeatherData (req_now r) (req_city r) c Hwf) as H1.
  pose proof (synced_getCachedWeatherData (req_now r) (req_city r) c Hwf Hs)
    as H2.
  pose proof (miss_absent (req_now r) (req_city r) c) as H3.
  destruct (getCachedWeatherData (req_now r) (req_city r) c)
    as [[d found] c1]. simpl in H1, H2, H3.
  destruct found; [done|]. destruct (req_fetched r); [|done].
  apply synced_updateCache; auto.
Qed.

Lemma serveAll_inv (c : Cache) rs :
  wf c → synced c → wf (serveAll c rs) ∧ synced (serveAll c rs).
Proof.
  unfold serveAll. revert c.
  induction rs as [|r rs IH]; intros c Hwf Hs; [done|].
  simpl. apply IH; [by apply serve_wf|by apply serve_synced].
Qed.

(** One request after the other, the index and the recency sequence hold
    the same keys, each once in the sequence, and as many as the index. *)
Lemma serveAll_bijection size ttl rs :
  let c := serveAll (newCache size ttl) rs in
  NoDup (recency c) ∧ (∀ k, k ∈ indexKeys c ↔ k ∈ recency c)
  ∧ indexSize c = listSize c.
Proof.
  intros c.
  destruct (serveAll_inv (newCache size ttl) rs) as [Hwf Hs];
    [apply wf_newCache|apply synced_newCache|].
  split; [by apply synced_NoDup|].
  split; [intros k; by apply synced_keys|by apply synced_size].
Qed.

(** [updateCache] of a new key on a cache in step: at the bound the back
    element goes, from the sequence and from the index, and nothing else;
    below the bound nothing goes. *)
Lemma insert_absent_evicts k v (c : Cache) :
  wf c → synced c → data c !! k = None →
  let e := {| eid := nextElem c; Value := {| city := k; itemData := v |} |} in
  if bool_decide (maxSize c ≤ indexSize c)
  then match golist.Back (orderedList c) with
       | Some oldest =>
           ∃ l, orderedList c = l ++ [oldest] ∧
                orderedList (updateCache k v c) = e :: l ∧
                data (updateCache k v c)
                = <[k := e]> (delete (city (Value oldest)) (data c))
       | None =>
           orderedList (updateCache k v c) = [e] ∧
           data (updateCache k v c) = {[ k := e ]}
       end
  else orderedList (updateCache k v c) = e :: orderedList c ∧
       data (updateCache k v c) = <[k := e]> (data c).
Proof.
  intros Hwf Hs Hk e. rewrite (synced_size c Hwf Hs).
  unfold updateCache. fold (listSize c).
  case_bool_decide as Hfull; [|done].
  unfold evictOldest.
  destruct (golist.Back (orderedList c)) as [oldest|] eqn:Hb.
  - destruct (Back_Some _ _ Hb) as [l Hl]. exists l. split; [done|].
    destruct Hwf as [Hnd _ _]. simpl. rewrite Hl in Hnd |- *.
    by rewrite Remove_back.
  - apply Back_None in Hb. simpl. rewrite Hb. split; [done|].
    assert (data c = ∅) as ->; [|by rewrite insert_empty].
    apply map_empty. intros k'. destruct (data c !! k') as [x|] eqn:Hx; [|done].
    destruct Hwf as [_ _ Hix]. destruct (Hix _ _ Hx) as [Hin _].
    rewrite Hb in Hin. by apply elem_of_nil in Hin.
Qed.

(** ** Inserting a key the index already holds

    [updateCache] never looks the key up: it pushes a new element and
    overwrites the index entry, and the element the entry pointed to stays
    in the recency sequence. *)

(** C1. [updateCache] on a present key, on the production cache. After one
    request for Pune a second insert of Pune leaves two elements for Pune in
    the sequence, whose length goes from 1 to 2. On the cache filled with
    [city0] .. [city99], inserting the present [city99] again evicts the
    other key [city0], the index shrinks from 100 to 99 entries, and
    [city99] is in the sequence twice. *)
Theorem insert_present_duplicates :
  (let c := updateCache "Pune" (sample "Pune" 1) onePune in
   present "Pune" onePune ∧
   listSize onePune = 1 ∧ listSize c = 2 ∧
   recency c = ["Pune"; "Pune"] ∧ indexSize c = 1)
  ∧
  (let c := updateCache "city99" (sample "city99" 100) full in
   present "city99" full ∧ present "city0" full ∧
   indexSize full = 100 ∧ listSize full = 100 ∧
   data c !! "city0" = None ∧ ("city0" ∉ recency c) ∧
   indexSize c = 99 ∧ listSize c = 100 ∧
   take 2 (recency c) = ["city99"; "city99"]).
Proof.
  split; repeat split; evaluate.
Qed.

(** C2. Sequences of operations from the production cache. After two
    lookups and two inserts of Pune (two requests that both miss before
    either inserts), or just the two inserts, Pune occurs twice in the
    recency sequence. After Pune twice, ninety-eight other cities and Delhi,
    the older Pune element has been evicted and has taken the index entry of
    Pune with it: Pune is still in the sequence and no longer in the
    index. *)
Theorem duplicates_break_bijection :
  recency (run init racingRequests) = ["Pune"; "Pune"] ∧
  indexKeys (run init racingRequests) = {["Pune"]} ∧
  recency (run init puneTwice) = ["Pune"; "Pune"] ∧
  ¬ NoDup (recency (run init puneTwice)) ∧
  (let c := run init puneTwiceThenFull in
   "Pune" ∈ recency c ∧ ("Pune" ∉ indexKeys c) ∧
   indexSize c = 99 ∧ listSize c = 100).
Proof.
  split; [by vm_compute|]. split; [evaluate|]. split; [by vm_compute|]. split.
  - intros Hnd. apply (bool_decide_pack _) in Hnd. by vm_compute in Hnd.
  - repeat split; evaluate.
Qed.

(** C4. [updateCache] decides on eviction by the length of the recency
    sequence alone. On the full production cache the insert of the present
    key [city99] evicts the back element, that of [city0]; the next insert,
    of the new key Delhi, evicts again, [city1], although the index then
    holds 99 entries and not 100. *)
Theorem insert_present_evicts :
  let c1 := updateCache "city99" (sample "city99" 100) full in
  let c2 := updateCache "Delhi" (sample "Delhi" 101) c1 in
  indexSize full = maxSize full ∧
  present "city99" full ∧
  (city ∘ Value <$> golist.Back (orderedList full)) = Some "city0" ∧
  present "city0" full ∧
  data c1 !! "city0" = None ∧
  indexSize c1 = 99 ∧ maxSize c1 = 100 ∧
  data c1 !! "Delhi" = None ∧
  present "city1" c1 ∧
  data c2 !! "city1" = None.
Proof.
  repeat split; evaluate.
Qed.

(** C5, as stated, at the empty cache with [maxSize] 0: after the insert of
    Pune the cache is not empty, it holds Pune. *)
Lemma zero_capacity_not_empty :
  let c := updateCache "Pune" (sample "Pune" 0) (newCache 0 halfHour) in
  ¬ isEmpty c ∧ recency c = ["Pune"] ∧ indexSize c = 1.
Proof.
  split; [|by vm_compute]. intros [_ Hl]. by vm_compute in Hl.
Qed.

Lemma wf_empty_index (c : Cache) : wf c → orderedList c = [] → data c = ∅.
Proof.
  intros [_ _ Hix] Hl. apply map_empty. intros k.
  destruct (data c !! k) as [x|] eqn:Hx; [|done].
  destruct (Hix _ _ Hx) as [Hin _]. rewrite Hl in Hin.
  by apply elem_of_nil in Hin.
Qed.

(** C5, amended. With [maxSize] 0, every insert, after any sequence of
    operations from the empty cache, takes the eviction branch;
    [evictOldest] removes at most one element (the back one, none from an
    empty sequence) and leaves the cache empty; and after the insert the
    cache holds exactly the inserted entry. [updateCache] is a total
    function: there is no failing path. *)
Theorem zero_capacity ttl (ops : list Op) k v :
  let c := run (newCache 0 ttl) ops in
  let c' := updateCache k v c in
  bool_decide (maxSize c ≤ golist.Len (orderedList c)) = true ∧
  listSize c - 1 ≤ listSize (evictOldest c) ∧
  isEmpty (evictOldest c) ∧
  ∃ e, Value e = {| city := k; itemData := v |} ∧
       orderedList c' = [e] ∧ data c' = {[ k := e ]}.
Proof.
  intros c c'.
  assert (maxSize c = 0) as Hm by apply maxSize_run.
  assert (wf c) as Hwf by apply wf_run, wf_newCache.
  assert (listSize c ≤ 1) as Hb.
  { assert (listSize c ≤ Z.max 1 (maxSize c)) as Hb.
    { apply bound_run. unfold listSize, golist.Len. simpl. lia. }
    lia. }
  pose proof (listSize_nonneg c) as H0.
  pose proof (listSize_evictOldest c) as He.
  assert (isEmpty (evictOldest c)) as [Hd Hl].
  { assert (orderedList (evictOldest c) = []) as Hl.
    { apply nil_length_inv. unfold listSize, golist.Len in *. lia. }
    split; [|done]. apply wf_empty_index; [by apply wf_evictOldest|done]. }
  split; [apply bool_decide_eq_true_2; fold (listSize c); lia|].
  split; [lia|]. split; [done|].
  subst c'. unfold updateCache.
  rewrite bool_decide_eq_true_2 by (fold (listSize c); lia).
  simpl. rewrite Hd, Hl, insert_empty.
  eexists. split; [|split]; [|reflexivity|reflexivity]. reflexivity.
Qed.

(** ** The locking protocol *)

(** A goroutine that runs alone computes the sequential functions. *)
Lemma alone_get now k (c : Cache) :
  RW.alone 7 (RW.Get now k RW.G_RLock) c RW.unlocked =
  (RW.Get now k (RW.G_done (fst (getCachedWeatherData now k c))),
   snd (getCachedWeatherData now k c), RW.unlocked).
Proof.
  rewrite getCachedWeatherData_unfold. simpl.
  destruct (data c !! k) as [e|]; simpl; [|done].
  by case_bool_decide.
Qed.

Lemma alone_update k d (c : Cache) :
  RW.alone 6 (RW.Update k d RW.U_Lock) c RW.unlocked =
  (RW.Update k d RW.U_done, updateCache k d c, RW.unlocked).
Proof. reflexivity. Qed.

Section lock_accounting.
Implicit Types (t : RW.Thread) (ts : list RW.Thread) (p : RW.Thread → bool).

Lemma count_cons p t ts :
  RW.count p (t :: ts) = (Nat.b2n (p t) + RW.count p ts)%nat.
Proof. reflexivity. Qed.

Lemma count_insert p ts (i : nat) t t' :
  ts !! i = Some t →
  (RW.count p (<[i := t']> ts) + Nat.b2n (p t)
   = RW.count p ts + Nat.b2n (p t'))%nat.
Proof.
  revert i.
  induction ts as [|x ts IH]; intros [|i] Hi; simplify_eq/=;
    rewrite !count_cons; [lia|].
  specialize (IH i Hi). lia.
Qed.

Lemma count_one p ts (i : nat) t :
  ts !! i = Some t → p t = true → (1 ≤ RW.count p ts)%nat.
Proof.
  revert i.
  induction ts as [|x ts IH]; intros [|i] Hi Hp; simplify_eq/=;
    rewrite count_cons.
  - rewrite Hp. simpl. lia.
  - specialize (IH i Hi Hp). lia.
Qed.

Lemma count_two p ts (i j : nat) t t' :
  i ≠ j → ts !! i = Some t → ts !! j = Some t' →
  p t = true → p t' = true → (2 ≤ RW.count p ts)%nat.
Proof.
  revert i j.
  induction ts as [|x ts IH]; intros [|i] [|j] Hne Hi Hj Hp Hp';
    simplify_eq/=; rewrite count_cons.
  - pose proof (count_one p ts j t' Hj Hp'). rewrite Hp. simpl. lia.
  - pose proof (count_one p ts i t Hi Hp). rewrite Hp'. simpl. lia.
  - assert (i ≠ j) as Hne' by congruence.
    specialize (IH i j Hne' Hi Hj Hp Hp'). lia.
Qed.

Lemma count_outside p ts :
  (∀ t, p t = true → RW.inCritical t = true ∨ RW.pending t = true) →
  Forall RW.outside ts → RW.count p ts = O.
Proof.
  intros Hp. unfold RW.outside.
  induction 1 as [|t ts [Hc Hw] _ IH]; [done|].
  rewrite count_cons, IH. destruct (p t) eqn:Hpt; [|done].
  apply Hp in Hpt as [Hpt|Hpt]; congruence.
Qed.

(** What one step does to the lock, against what it does to the position of
    the goroutine that takes it. *)
Lemma stepThread_lock t (c : Cache) m t' c' m' :
  RW.stepThread t c m = Some (t', c', m') →
  (RW.writer m = true → RW.readers m = O ∧ RW.waiting m = false) →
  (RW.readers m' + Nat.b2n (RW.inRead t)
   = RW.readers m + Nat.b2n (RW.inRead t'))%nat ∧
  (Nat.b2n (RW.writer m') + Nat.b2n (RW.inWrite t)
   = Nat.b2n (RW.writer m) + Nat.b2n (RW.inWrite t'))%nat ∧
  (Nat.b2n (RW.waiting m') + Nat.b2n (RW.pending t)
   = Nat.b2n (RW.waiting m) + Nat.b2n (RW.pending t'))%nat ∧
  (RW.writer m' = true → RW.readers m' = O ∧ RW.waiting m' = false).
Proof.
  destruct m as [r w g]. simpl.
  destruct t as [now k pc|k d pc]; simpl.
  - destruct pc; simpl; intros Hs Hx;
      repeat match goal with
      | H : context [RW.RLock _] |- _ =>
          unfold RW.RLock in H; simpl in H; destruct w, g; simpl in H
      | H : context [RW.RUnlock _] |- _ =>
          unfold RW.RUnlock in H; simpl in H; destruct r; simpl in H
      | H : context [data c !! k] |- _ => destruct (data c !! k)
      | H : context [bool_decide ?P] |- _ => destruct (bool_decide P)
      end; simplify_eq/=;
      (split; [lia|]; split; [lia|]; split; [lia|]);
      intros Hw; try done; by destruct (Hx Hw).
  - destruct pc; simpl; intros Hs Hx;
      repeat match goal with
      | H : context [RW.Lock_announce _] |- _ =>
          unfold RW.Lock_announce in H; simpl in H; destruct w, g; simpl in H
      | H : context [RW.Lock_acquire _] |- _ =>
          unfold RW.Lock_acquire in H; simpl in H;
          destruct w; [by destruct Hx as [_ ->]|];
          destruct g, r; simpl in H
      | H : context [RW.Unlock _] |- _ =>
          unfold RW.Unlock in H; simpl in H; destruct w; simpl in H
      end; simplify_eq/=;
      (split; [lia|]; split; [lia|]; split; [lia|]);
      intros Hw; try done; by destruct (Hx Hw).
Qed.

Lemma lockInv_stepAt (i : nat) cf cf' :
  RW.lockInv cf → RW.stepAt i cf = Some cf' → RW.lockInv cf'.
Proof.
  intros (Hr & Hw & Hg & Hx). unfold RW.stepAt.
  destruct (RW.threads cf !! i) as [t|] eqn:Hi; [|done]. simpl.
  destruct (RW.stepThread t (RW.cache cf) (RW.mu cf))
    as [[[t' c'] m']|] eqn:Hs; [|done].
  simpl. intros [= <-]. unfold RW.lockInv. simpl.
  destruct (stepThread_lock _ _ _ _ _ _ Hs Hx) as (Er & Ew & Eg & Ex).
  pose proof (count_insert RW.inRead _ i t t' Hi).
  pose proof (count_insert RW.inWrite _ i t t' Hi).
  pose proof (count_insert RW.pending _ i t t' Hi).
  split; [lia|]. split; [lia|]. split; [lia|]. done.
Qed.

Lemma lockInv_exec sched cf cf' :
  RW.lockInv cf → RW.exec sched cf = Some cf' → RW.lockInv cf'.
Proof.
  revert cf. induction sched as [|i sched IH]; intros cf Hinv; simpl.
  - by intros [= <-].
  - destruct (RW.stepAt i cf) as [cf1|] eqn:Hs; [|done]. simpl.
    apply IH. by eapply lockInv_stepAt.
Qed.

Lemma inRead_inside t :
  RW.inRead t = true → RW.inCritical t = true ∨ RW.pending t = true.
Proof. intros Ht. left. unfold RW.inCritical. by rewrite Ht. Qed.

Lemma inWrite_inside t :
  RW.inWrite t = true → RW.inCritical t = true ∨ RW.pending t = true.
Proof.
  intros Ht. left. unfold RW.inCritical. rewrite Ht. apply orb_true_r.
Qed.

Lemma pending_inside t :
  RW.pending t = true → RW.inCritical t = true ∨ RW.pending t = true.
Proof. by right. Qed.

Lemma lockInv_start (c : Cache) ts :
  Forall RW.outside ts →
  RW.lockInv {| RW.cache := c; RW.mu := RW.unlocked; RW.threads := ts |}.
Proof.
  intros Hts. unfold RW.lockInv. simpl.
  rewrite (count_outside _ _ inRead_inside Hts).
  rewrite (count_outside _ _ inWrite_inside Hts).
  by rewrite (count_outside _ _ pending_inside Hts).
Qed.

(** Whatever the schedule, a goroutine inside [updateCache] is alone: no
    other goroutine is inside either call. *)
Lemma updates_exclusive sched (c : Cache) ts cf (i j : nat) ti tj :
  Forall RW.outside ts →
  RW.exec sched {| RW.cache := c; RW.mu := RW.unlocked; RW.threads := ts |}
  = Some cf →
  i ≠ j →
  RW.threads cf !! i = Some ti → RW.threads cf !! j = Some tj →
  RW.inWrite ti = true → RW.inCritical tj = false.
Proof.
  intros Hts Hex Hne Hi Hj Hwi.
  destruct (lockInv_exec _ _ _ (lockInv_start c ts Hts) Hex)
    as (Hr & Hw & _ & Hx).
  pose proof (count_one RW.inWrite _ i ti Hi Hwi) as H1.
  assert (RW.writer (RW.mu cf) = true) as Hwt.
  { destruct (RW.writer (RW.mu cf)); [done|]. simpl in Hw. lia. }
  rewrite Hwt in Hw. simpl in Hw. destruct (Hx Hwt) as [Hx0 _].
  unfold RW.inCritical. apply orb_false_iff. split.
  - destruct (RW.inRead tj) eqn:Hrj; [|done].
    pose proof (count_one RW.inRead _ j tj Hj Hrj). lia.
  - destruct (RW.inWrite tj) eqn:Hwj; [|done].
    pose proof (count_two RW.inWrite _ i j ti tj Hne Hi Hj Hwi Hwj). lia.
Qed.

End lock_accounting.

(** C9. Two lookups of Pune on the production cache, half an hour after
    Pune was cached. The first goroutine takes the read lock and runs up to
    its [delete]; the read lock is then granted to the second as well. Both
    are inside [getCachedWeatherData] at once, and the second reads an index
    entry whose element is no longer in the recency sequence. *)
Theorem lookups_overlap :
  ∃ cf,
    RW.exec racingSchedule racingStart = Some cf ∧
    RW.readers (RW.mu cf) = 2%nat ∧
    RW.overlap cf ∧
    data (RW.cache cf) !! "Pune" = Some puneElem ∧
    (puneElem ∉ orderedList (RW.cache cf)) ∧
    ¬ wf (RW.cache cf).
Proof.
  eexists. split; [by vm_compute|]. split; [done|].
  assert (puneElem ∉ @nil Element) as Hnot by apply not_elem_of_nil.
  split; [|split; [done|split; [done|]]].
  - exists 0%nat, 1%nat. eexists _, _. by repeat split.
  - intros [_ _ Hix]. by destruct (Hix "Pune" puneElem).
Qed.

(** * Further properties of the cache *)

(** ** What the index always guarantees *)

(** After any sequence of lookups and inserts from an empty cache, every
    entry of the index points to an element that is in the recency sequence
    and carries the entry's key; the elements of the sequence are pairwise
    different; and the index has at most as many entries as the sequence has
    elements. *)
Theorem index_points_into_sequence size ttl (ops : list Op) :
  let c := run (newCache size ttl) ops in
  (∀ k e, data c !! k = Some e → e ∈ orderedList c ∧ city (Value e) = k) ∧
  (∀ k, k ∈ indexKeys c → k ∈ recency c) ∧
  NoDup (orderedList c) ∧
  indexSize c ≤ listSize c.
Proof.
  intros c.
  assert (wf c) as Hwf by apply wf_run, wf_newCache.
  split; [by destruct Hwf|].
  split; [intros k; by apply wf_keys_subset|].
  split; [|by apply indexSize_le_listSize].
  destruct Hwf as [Hnd _ _]. by eapply NoDup_fmap_1.
Qed.

(** ** What a lookup leaves alone *)

Lemma data_getCachedWeatherData_ne now k k' (c : Cache) :
  k' ≠ k → data (snd (getCachedWeatherData now k c)) !! k' = data c !! k'.
Proof.
  intros Hne. rewrite getCachedWeatherData_unfold.
  destruct (data c !! k) as [e|]; [|done].
  case_bool_decide; simpl; [done|]. by rewrite lookup_delete_ne.
Qed.

Lemma expiry_getCachedWeatherData now k (c : Cache) :
  expiry (snd (getCachedWeatherData now k c)) = expiry c.
Proof.
  rewrite getCachedWeatherData_unfold.
  destruct (data c !! k); [|done]. by case_bool_decide.
Qed.

(** A lookup of [k] changes nothing for the other keys: their index entries
    stay, expired or not, and the elements other than the one of [k] keep
    their order in the recency sequence. *)
Theorem lookup_frame now k e (c : Cache) :
  wf c →
  data c !! k = Some e →
  let c' := snd (getCachedWeatherData now k c) in
  (∀ k', k' ≠ k → data c' !! k' = data c !! k') ∧
  golist.Remove e (orderedList c') = golist.Remove e (orderedList c).
Proof.
  intros Hwf Hk c'. split.
  - intros k' Hne. by apply data_getCachedWeatherData_ne.
  - subst c'. rewrite getCachedWeatherData_unfold, Hk.
    pose proof Hwf as [Hnd _ Hix]. destruct (Hix _ _ Hk) as [He _].
    case_bool_decide; simpl; rewrite MoveToFront_present by done.
    + apply Remove_head.
    + rewrite Remove_head. apply Remove_absent.
      intros (x & Heq & Hx)%list_elem_of_fmap.
      apply Remove_elem_of_iff in Hx as [_ Hx]; [|done]. by apply Hx.
Qed.

Lemma lookup_frame_witness :
  data (snd (getCachedWeatherData halfHour "Pune" onePune)) !! "Delhi"
  = data onePune !! "Delhi".
Proof.
  assert (wf onePune) as Hwf by (apply wfb_wf; vm_compute; reflexivity).
  assert (data onePune !! "Pune" = Some puneElem) as Hk by reflexivity.
  apply (lookup_frame halfHour "Pune" puneElem onePune Hwf Hk). discriminate.
Defined.

(** ** What a hit guarantees *)

Lemma hit_inv now k v (c c' : Cache) :
  getCachedWeatherData now k c = (v, true, c') →
  (∃ e, data c !! k = Some e ∧ v = itemData (Value e)) ∧
  time.Since now (CacheTime v) < expiry c ∧
  data c' = data c.
Proof.
  rewrite getCachedWeatherData_unfold.
  destruct (data c !! k) as [e|]; [|done].
  case_bool_decide as Hage; [|done].
  intros [= <- <-]. split; [by exists e|done].
Qed.

Lemma miss_inv now k v (c c' : Cache) :
  getCachedWeatherData now k c = (v, false, c') →
  v = zeroCityWeatherData ∧ data c' !! k = None.
Proof.
  rewrite getCachedWeatherData_unfold.
  destruct (data c !! k) as [e|] eqn:Hk.
  - case_bool_decide; [done|]. intros [= <- <-].
    split; [done|apply lookup_delete_eq].
  - by intros [= <- <-].
Qed.

(** When [getCachedWeatherData] reports a hit, the record it returns is the
    one the index holds for the key, that record is younger than [expiry],
    and the index is unchanged. *)
Theorem hit_is_fresh now k v (c c' : Cache) :
  getCachedWeatherData now k c = (v, true, c') →
  (∃ e, data c !! k = Some e ∧ v = itemData (Value e)) ∧
  time.Since now (CacheTime v) < expiry c ∧
  data c' = data c.
Proof.
  rewrite getCachedWeatherData_unfold.
  destruct (data c !! k) as [e|] eqn:Hk; [|by intros [= _ Hf]].
  case_bool_decide as Hage; [|by intros [= _ Hf]].
  intros [= Hv Hc]. subst v c'.
  split; [exists e; by split|]. by split.
Qed.

Lemma hit_is_fresh_witness :
  time.Since (10 * time.Minute) (CacheTime (sample "Pune" 0))
  < expiry onePune.
Proof.
  apply (hit_is_fresh (10 * time.Minute) "Pune" (sample "Pune" 0) onePune
           onePune).
  reflexivity.
Defined.

(** A miss, for an absent key or for an expired one, returns the zero value
    and leaves the key out of the index. *)
Theorem miss_leaves_absent now k v (c c' : Cache) :
  getCachedWeatherData now k c = (v, false, c') →
  v = zeroCityWeatherData ∧ data c' !! k = None.
Proof.
  rewrite getCachedWeatherData_unfold.
  destruct (data c !! k) as [e|] eqn:Hk.
  - case_bool_decide as Hage; [by intros [= _ Hf]|].
    intros [= Hv Hc]. subst v c'. split; [done|]. simpl.
    apply lookup_delete_eq.
  - intros [= Hv Hc]. subst v c'. by split.
Qed.

Lemma miss_leaves_absent_witness :
  data (snd (getCachedWeatherData halfHour "Pune" onePune)) !! "Pune" = None.
Proof.
  apply (miss_leaves_absent halfHour "Pune" zeroCityWeatherData onePune
           (snd (getCachedWeatherData halfHour "Pune" onePune))).
  reflexivity.
Defined.

(** A hit repeated at the same instant gives the same record and leaves the
    cache as the first hit left it. *)
Theorem hit_twice now k v (c c' : Cache) :
  wf c →
  getCachedWeatherData now k c = (v, true, c') →
  getCachedWeatherData now k c' = (v, true, c').
Proof.
  intros [_ _ Hix]. rewrite getCachedWeatherData_unfold.
  destruct (data c !! k) as [e|] eqn:Hk; [|done].
  case_bool_decide as Hage; [|done]. intros [= <- <-].
  destruct (Hix _ _ Hk) as [He _].
  apply (lookup_front_hit now k e (golist.Remove e (orderedList c)));
    [done| |done].
  by apply MoveToFront_present.
Qed.

Lemma hit_twice_witness :
  getCachedWeatherData 5 "Pune" onePune = (sample "Pune" 0, true, onePune).
Proof.
  assert (wf onePune) as Hwf by (apply wfb_wf; vm_compute; reflexivity).
  apply (hit_twice 5 "Pune" (sample "Pune" 0) onePune onePune Hwf).
  reflexivity.
Defined.

(** ** What an insert leaves alone *)

Lemma data_evictOldest_ne k' (c : Cache) :
  (∀ o, golist.Back (orderedList c) = Some o → city (Value o) ≠ k') →
  data (evictOldest c) !! k' = data c !! k'.
Proof.
  intros Hb. unfold evictOldest.
  destruct (golist.Back (orderedList c)) as [o|]; [|done].
  simpl. apply lookup_delete_ne. by apply Hb.
Qed.

Lemma data_updateCache_ne k v k' (c : Cache) :
  k' ≠ k →
  (listSize c < maxSize c ∨
   ∀ o, golist.Back (orderedList c) = Some o → city (Value o) ≠ k') →
  data (updateCache k v c) !! k' = data c !! k'.
Proof.
  intros Hne Hb. unfold updateCache. fold (listSize c).
  case_bool_decide as Hfull; simpl; rewrite lookup_insert_ne by done.
  - destruct Hb as [Hlt|Hb]; [lia|]. by apply data_evictOldest_ne.
  - done.
Qed.

(** [updateCache k] touches the index at [k] and at the key of the back
    element of the recency sequence, nowhere else; and below [maxSize] it
    touches the index at [k] only. *)
Theorem insert_frame k v k' (c : Cache) :
  k' ≠ k →
  (listSize c < maxSize c ∨
   ∀ o, golist.Back (orderedList c) = Some o → city (Value o) ≠ k') →
  data (updateCache k v c) !! k' = data c !! k'.
Proof.
  intros Hne Hb. unfold updateCache. fold (listSize c).
  case_bool_decide as Hfull; simpl; rewrite lookup_insert_ne by done.
  - destruct Hb as [Hlt|Hb]; [lia|].
    unfold evictOldest.
    destruct (golist.Back (orderedList c)) as [o|] eqn:Ho; [|done].
    simpl. apply lookup_delete_ne. by apply Hb.
  - done.
Qed.

Lemma insert_frame_witness :
  data (updateCache "Delhi" (sample "Delhi" 7) onePune) !! "Pune"
  = data onePune !! "Pune".
Proof.
  apply (insert_frame "Delhi" (sample "Delhi" 7) "Pune" onePune).
  - discriminate.
  - left. vm_compute. reflexivity.
Defined.

(** A key that is not in the index and is not the one inserted is not in
    the index afterwards either. *)
Lemma absent_updateCache k v k' (c : Cache) :
  k' ≠ k → data c !! k' = None → data (updateCache k v c) !! k' = None.
Proof.
  intros Hne Hk'. unfold updateCache.
  case_bool_decide; simpl; rewrite lookup_insert_ne by done; [|done].
  by apply absent_evictOldest.
Qed.

(** ** Least recently used goes first *)

Lemma run_app (c : Cache) ops1 ops2 :
  run c (ops1 ++ ops2) = run (run c ops1) ops2.
Proof. unfold run. apply foldl_app. Qed.

Lemma listSize_recency (c : Cache) :
  listSize c = Z.of_nat (length (recency c)).
Proof. unfold listSize, golist.Len, recency. by rewrite length_fmap. Qed.

(** The recency sequence after the insert of a new key into a cache whose
    index and sequence are in step: the key in front, and behind it the old
    sequence, without its last key when the bound was reached. *)
Lemma recency_updateCache_absent k v (c : Cache) :
  wf c → synced c → data c !! k = None → 0 < maxSize c →
  recency (updateCache k v c) =
  k :: if bool_decide (maxSize c ≤ listSize c)
       then take (length (recency c) - 1) (recency c)
       else recency c.
Proof.
  intros Hwf Hs Hk Hpos.
  pose proof (insert_absent_evicts k v c Hwf Hs Hk) as Hins.
  cbv zeta in Hins.
  rewrite (synced_size c Hwf Hs) in Hins. unfold recency at 1.
  case_bool_decide as Hfull.
  - destruct (golist.Back (orderedList c)) as [oldest|] eqn:Hb.
    + destruct Hins as (l & Hl & -> & _). simpl. f_equal.
      unfold recency. rewrite Hl, fmap_app, length_app. simpl.
      rewrite Nat.add_sub. by rewrite take_app_length.
    + apply Back_None in Hb. unfold listSize, golist.Len in Hfull.
      rewrite Hb in Hfull. simpl in Hfull. lia.
  - by destruct Hins as [-> _].
Qed.

(** Inserts of pairwise different keys into an empty cache with a positive
    [maxSize] leave exactly the last [maxSize] of them, the latest in front;
    the index holds exactly these keys. In particular the first of
    [maxSize + 1] keys is the only one evicted. *)
Theorem inserts_keep_latest size ttl (kvs : list (string * CityWeatherData)) :
  0 < size →
  NoDup (fst <$> kvs) →
  let c := run (newCache size ttl) (inserts kvs) in
  recency c = take (Z.to_nat size) (reverse (fst <$> kvs)) ∧
  ∀ k, k ∈ indexKeys c ↔ k ∈ take (Z.to_nat size) (reverse (fst <$> kvs)).
Proof.
  intros Hpos Hnd c.
  assert (wf c ∧ synced c ∧
          recency c = take (Z.to_nat size) (reverse (fst <$> kvs)))
    as (Hwf & Hs & Hr).
  { subst c. induction kvs as [|[k v] kvs IH] using rev_ind.
    - split; [apply wf_newCache|]. split; [apply synced_newCache|].
      by destruct (Z.to_nat size).
    - rewrite fmap_app in Hnd. apply NoDup_app in Hnd as (Hnd & Hk & _).
      destruct (IH Hnd) as (Hwf & Hs & Hr). clear IH.
      unfold inserts. rewrite fmap_app, run_app. fold (inserts kvs).
      set (c := run (newCache size ttl) (inserts kvs)) in *.
      change (run c (_ <$> [(k, v)])) with (updateCache k v c).
      assert (maxSize c = size) as Hm by apply maxSize_run.
      assert (data c !! k = None) as Habs.
      { destruct (data c !! k) as [e|] eqn:He; [|done]. exfalso.
        assert (k ∈ recency c) as Hin.
        { apply wf_keys_subset; [done|]. apply elem_of_dom. by exists e. }
        rewrite Hr in Hin. apply elem_of_take in Hin as (i & Hin & _).
        apply list_elem_of_lookup_2 in Hin. rewrite elem_of_reverse in Hin.
        apply (Hk k); [done|]. simpl. by apply list_elem_of_singleton. }
      split; [by apply wf_updateCache|].
      split; [by apply synced_updateCache|].
      rewrite recency_updateCache_absent by (done || lia).
      rewrite fmap_app, reverse_app. simpl.
      rewrite listSize_recency, Hm, Hr.
      rewrite length_take, length_reverse.
      destruct (Z.to_nat size) as [|n] eqn:Hn; [lia|].
      rewrite firstn_cons. f_equal. case_bool_decide as Hfull.
      + rewrite take_take. f_equal. lia.
      + rewrite !take_ge; [done|rewrite length_reverse; lia..]. }
  split; [done|]. intros k. rewrite <- Hr. by apply synced_keys.
Qed.

Lemma inserts_keep_latest_witness :
  recency (run (newCache 2 halfHour)
             (inserts [("a", sample "a" 0); ("b", sample "b" 1);
                       ("c", sample "c" 2)]))
  = ["c"; "b"].
Proof.
  apply (inserts_keep_latest 2 halfHour
           [("a", sample "a" 0); ("b", sample "b" 1); ("c", sample "c" 2)]).
  - lia.
  - apply (bool_decide_unpack _). vm_compute. reflexivity.
Defined.

(** ** A hit protects the key from the next eviction *)

Lemma Back_cons_ne (e : Element) (l : golist.List) o :
  l ≠ [] → golist.Back (e :: l) = Some o → o ∈ l.
Proof.
  intros Hl Hb. destruct (Back_Some _ _ Hb) as [l' Hl'].
  destruct l as [|x l] using rev_ind; [done|].
  rewrite app_comm_cons in Hl'. apply app_inj_tail in Hl' as [_ ->].
  rewrite elem_of_app. right. by apply list_elem_of_singleton.
Qed.

(** On a cache whose index and sequence are in step and that has room for
    at least two entries, a key that has just been hit is still in the index,
    with the same entry, after the insert of any other key: the eviction, if
    there is one, takes another key. *)
Theorem hit_survives_next_insert now k e k' v (c : Cache) :
  wf c → synced c →
  2 ≤ maxSize c →
  data c !! k = Some e →
  time.Since now (CacheTime (itemData (Value e))) < expiry c →
  k' ≠ k →
  data (updateCache k' v (snd (getCachedWeatherData now k c))) !! k = Some e.
Proof.
  intros Hwf Hs Hmax Hk Hage Hne.
  rewrite getCachedWeatherData_unfold, Hk, bool_decide_eq_true_2 by done.
  cbn [snd].
  assert (wf (promoted e c)) as Hwf1 by by eapply wf_promoted.
  assert (synced (promoted e c)) as Hs1 by by eapply synced_promoted.
  assert (data (promoted e c) !! k = Some e) as Hk1 by done.
  rewrite data_updateCache_ne; [done|done|].
  destruct (decide (listSize (promoted e c) < maxSize (promoted e c)))
    as [Hlt|Hge]; [by left|right].
  intros o Hb Hcity.
  destruct Hwf as [_ _ Hix]. destruct (Hix _ _ Hk) as [He _].
  assert (orderedList (promoted e c) = e :: golist.Remove e (orderedList c))
    as Hl by by apply MoveToFront_present.
  rewrite Hl in Hb.
  assert (golist.Remove e (orderedList c) ≠ []) as Hrest.
  { intros Hnil. apply Hge. unfold listSize, golist.Len.
    rewrite Hl, Hnil. simpl. change (maxSize (promoted e c)) with (maxSize c).
    lia. }
  pose proof (Back_cons_ne _ _ _ Hrest Hb) as Ho.
  assert (o ∈ orderedList (promoted e c)) as Ho1 by (rewrite Hl; by right).
  apply Hs1 in Ho1. rewrite Hcity, Hk1 in Ho1. injection Ho1 as ->.
  destruct Hwf1 as [Hnd _ _]. rewrite Hl in Hnd.
  rewrite fmap_cons in Hnd. apply NoDup_cons in Hnd as [Hnot _].
  apply Hnot. by apply list_elem_of_fmap_2.
Qed.

Lemma hit_survives_next_insert_witness :
  data (updateCache "Delhi" (sample "Delhi" 7)
          (snd (getCachedWeatherData 5 "Pune" onePune))) !! "Pune"
  = Some puneElem.
Proof.
  apply (hit_survives_next_insert 5 "Pune" puneElem "Delhi"
           (sample "Delhi" 7) onePune).
  - apply wfb_wf. vm_compute. reflexivity.
  - apply synced_updateCache;
      [apply wf_newCache|apply synced_newCache|reflexivity].
  - vm_compute. discriminate.
  - reflexivity.
  - vm_compute. reflexivity.
  - discriminate.
Defined.

(** * The handlers *)

(** A record a handler has served is served again, from the cache and
    whatever the data source would answer now, for as long as it is younger
    than [expiry]. *)
Theorem served_again now k fetched d (c c1 : Cache) now' fetched' :
  weatherHandler now k fetched c = (Some d, c1) →
  time.Since now' (CacheTime d) < expiry c →
  fst (weatherHandler now' k fetched' c1) = Some d.
Proof.
  unfold weatherHandler. destruct (decide (k = "")) as [|Hk]; [done|].
  pose proof (expiry_getCachedWeatherData now k c) as Hexp.
  destruct (getCachedWeatherData now k c) as [[x found] c0] eqn:Hget.
  simpl in Hexp. destruct found.
  - intros [= -> ->] Hage.
    apply hit_inv in Hget as ((e & He & ->) & _ & Hd).
    rewrite getCachedWeatherData_unfold, Hd, He.
    by rewrite Hexp, bool_decide_eq_true_2.
  - destruct fetched as [newData|]; [|done]. intros [= -> <-] Hage.
    rewrite lookup_after_insert_young; [done|]. by rewrite Hexp.
Qed.

Lemma served_again_witness :
  fst (weatherHandler 5 "Pune" None onePune) = Some (sample "Pune" 0).
Proof.
  apply (served_again 0 "Pune" (Some (sample "Pune" 0)) (sample "Pune" 0)
           init onePune 5 None).
  - reflexivity.
  - vm_compute. reflexivity.
Defined.

(** When a handler has nothing to serve (the city is empty, or the lookup
    missed and the fetch failed), it has put nothing into the index: the
    keys of the index are among those it had before. *)
Theorem nothing_served_nothing_cached now k fetched (c c1 : Cache) :
  weatherHandler now k fetched c = (None, c1) →
  (∀ k', is_Some (data c1 !! k') → is_Some (data c !! k')) ∧
  (k ≠ "" → data c1 !! k = None).
Proof.
  unfold weatherHandler. destruct (decide (k = "")) as [|Hk].
  - by intros [= <-].
  - destruct (getCachedWeatherData now k c) as [[x found] c0] eqn:Hget.
    destruct found; [done|]. destruct fetched; [done|]. intros [= <-].
    apply miss_inv in Hget as Hmiss. destruct Hmiss as [_ Habs].
    split; [|done]. intros k' Hk'.
    destruct (decide (k' = k)) as [->|Hne].
    + rewrite Habs in Hk'. by destruct Hk'.
    + pose proof (data_getCachedWeatherData_ne now k k' c Hne) as Hfr.
      rewrite Hget in Hfr. simpl in Hfr. by rewrite <- Hfr.
Qed.

Lemma nothing_served_nothing_cached_witness :
  data (snd (weatherHandler halfHour "Pune" None onePune)) !! "Pune" = None.
Proof.
  apply (nothing_served_nothing_cached halfHour "Pune" None onePune
           (snd (weatherHandler halfHour "Pune" None onePune)));
    [reflexivity|discriminate].
Defined.

Lemma serve_absent_empty (c : Cache) r :
  data c !! "" = None → data (serve c r) !! "" = None.
Proof.
  intros Hc. unfold serve, weatherHandler.
  destruct (decide (req_city r = "")) as [|Hk]; [done|].
  pose proof (data_getCachedWeatherData_ne (req_now r) (req_city r) "" c)
    as Hfr.
  destruct (getCachedWeatherData (req_now r) (req_city r) c)
    as [[x found] c0]. simpl in Hfr.
  assert (data c0 !! "" = None) as Hc0 by (rewrite Hfr; [done|congruence]).
  destruct found; [done|]. destruct (req_fetched r); [|done]. simpl.
  apply absent_updateCache; [congruence|done].
Qed.

(** Whatever the requests, the empty city never gets into the cache. *)
Theorem empty_city_never_cached size ttl (rs : list Request) :
  data (serveAll (newCache size ttl) rs) !! "" = None.
Proof.
  unfold serveAll.
  assert (data (newCache size ttl) !! "" = None) as H0 by done.
  revert H0. generalize (newCache size ttl).
  induction rs as [|r rs IH]; intros c Hc; [done|].
  simpl. by apply IH, serve_absent_empty.
Qed.

(** ** The Weatherstack-backed server *)

(** What a successful fetch returns. *)
Lemma getCityWeatherData_ok now apiKey httpGet k d :
  getCityWeatherData now apiKey httpGet k = inl d →
  City d = k ∧ CacheTime d = now ∧ apiKey ≠ "" ∧
  ∃ status body,
    httpGet (weatherstackURL apiKey k) = Response StatusOK status body.
Proof.
  unfold getCityWeatherData, fetchWeatherFromAPI.
  destruct (decide (apiKey = "")) as [|Hkey]; [done|].
  destruct (httpGet (weatherstackURL apiKey k)) as [err|code status body];
    [done|].
  destruct (decide (code ≠ StatusOK)) as [|Hcode]; [done|].
  apply dec_stable in Hcode. subst code.
  destruct body as [err|err|t descs]; [done|done|].
  intros [= <-]. simpl. eauto 6.
Qed.

(** The cache after a request to the Weatherstack-backed server is the cache
    the common handler leaves, with the outcome of the fetch as its data
    source. *)
Lemma weatherHandlerAPI_cache now fetchNow apiKey httpGet encodeErr k
    (c : Cache) :
  snd (weatherHandlerAPI now fetchNow apiKey httpGet encodeErr k c) =
  snd (weatherHandler now k
         (match getCityWeatherData fetchNow apiKey httpGet k with
          | inl d => Some d
          | inr _ => None
          end) c).
Proof.
  unfold weatherHandlerAPI, weatherHandler.
  destruct (decide (k = "")); [done|].
  destruct (getCachedWeatherData now k c) as [[x found] c1].
  destruct found; [by destruct (encodeErr x)|].
  by destruct (getCityWeatherData fetchNow apiKey httpGet k).
Qed.

Lemma keyed_getCachedWeatherData now k (c : Cache) :
  keyed c → keyed (snd (getCachedWeatherData now k c)).
Proof.
  intros Hc k' e. rewrite getCachedWeatherData_unfold.
  destruct (data c !! k) as [x|]; [|by apply Hc].
  case_bool_decide; simpl; [by apply Hc|].
  rewrite lookup_delete_Some. intros [_ He]. by apply Hc.
Qed.

Lemma keyed_evictOldest (c : Cache) : keyed c → keyed (evictOldest c).
Proof.
  intros Hc k e. unfold evictOldest.
  destruct (golist.Back (orderedList c)); [|by apply Hc]. simpl.
  rewrite lookup_delete_Some. intros [_ He]. by apply Hc.
Qed.

Lemma keyed_updateCache k d (c : Cache) :
  k ≠ "" → City d = k → keyed c → keyed (updateCache k d c).
Proof.
  intros Hk Hd Hc k' e. unfold updateCache.
  assert (keyed (if bool_decide (maxSize c ≤ golist.Len (orderedList c))
                 then evictOldest c else c)) as Hc1.
  { case_bool_decide; [by apply keyed_evictOldest|done]. }
  simpl. rewrite lookup_insert_Some. intros [[<- <-]|[_ He]]; [done|].
  by apply Hc1.
Qed.

Lemma keyed_serveAPI (c : Cache) r : keyed c → keyed (serveAPI c r).
Proof.
  intros Hc. unfold serveAPI, weatherHandlerAPI.
  destruct (decide (api_city r = "")) as [|Hk]; [done|].
  pose proof (keyed_getCachedWeatherData (api_now r) (api_city r) c Hc)
    as Hc1.
  destruct (getCachedWeatherData (api_now r) (api_city r) c)
    as [[x found] c1]. simpl in Hc1.
  destruct found; [by destruct (api_encode r x)|].
  destruct (getCityWeatherData (api_fetchNow r) (api_key r) (api_get r)
              (api_city r)) as [d|err] eqn:Hf; [|done].
  apply getCityWeatherData_ok in Hf as [Hd _]. simpl.
  by apply keyed_updateCache.
Qed.

Lemma keyed_serveAllAPI (c : Cache) rs : keyed c → keyed (serveAllAPI c rs).
Proof.
  unfold serveAllAPI. revert c.
  induction rs as [|r rs IH]; intros c Hc; [done|].
  simpl. by apply IH, keyed_serveAPI.
Qed.

Lemma wf_serveAPI (c : Cache) r : wf c → wf (serveAPI c r).
Proof.
  intros Hwf. unfold serveAPI. rewrite weatherHandlerAPI_cache.
  apply (serve_wf c {| req_now := api_now r; req_city := api_city r;
                       req_fetched := _ |} Hwf).
Qed.

Lemma wf_serveAllAPI (c : Cache) rs : wf c → wf (serveAllAPI c rs).
Proof.
  unfold serveAllAPI. revert c.
  induction rs as [|r rs IH]; intros c Hc; [done|].
  cbn [foldl]. by apply IH, wf_serveAPI.
Qed.

Lemma keyed_newCache size ttl : keyed (newCache size ttl).
Proof. intros k e He. simpl in He. by rewrite lookup_empty in He. Qed.

(** Whatever the requests and whatever Weatherstack answers, every record in
    the cache of the Weatherstack-backed server is filed under the city it
    is about, in the index and in its list element, and no record is filed
    under the empty city. *)
Theorem api_entries_match_city size ttl (rs : list ApiRequest) :
  let c := serveAllAPI (newCache size ttl) rs in
  ∀ k e, data c !! k = Some e →
    k ≠ "" ∧ City (itemData (Value e)) = k ∧ city (Value e) = k.
Proof.
  intros c k e He.
  assert (keyed c) as Hc by apply keyed_serveAllAPI, keyed_newCache.
  destruct (Hc _ _ He) as [Hk Hcity]. split; [done|]. split; [done|].
  assert (wf c) as [_ _ Hix] by apply wf_serveAllAPI, wf_newCache.
  by destruct (Hix _ _ He).
Qed.

(** The error replies of the Weatherstack-backed server, on any cache it
    can have reached. 400 answers the empty city, and leaves the cache as it
    is and without an entry for it. 500 answers a lookup that missed followed
    by a fetch that failed, and then there is no entry for the city; or it
    answers a hit whose record the encoder refused, and then the record
    stays in the index. *)
Theorem api_error_replies size ttl (rs : list ApiRequest)
    now fetchNow apiKey httpGet encodeErr k w msg code (c' : Cache) :
  let c := serveAllAPI (newCache size ttl) rs in
  weatherHandlerAPI now fetchNow apiKey httpGet encodeErr k c = (w, c') →
  reported w = Some (msg, code) →
  (k = "" ∧ code = StatusBadRequest ∧ w = Error msg code ∧ c' = c ∧
   data c' !! k = None) ∨
  (k ≠ "" ∧ code = StatusInternalServerError ∧ w = Error msg code ∧
   (∃ err, getCityWeatherData fetchNow apiKey httpGet k = inr err) ∧
   data c' !! k = None) ∨
  (k ≠ "" ∧ code = StatusInternalServerError ∧
   ∃ d err e, w = EncodeError d msg code ∧ encodeErr d = Some err ∧
              data c' !! k = Some e ∧ itemData (Value e) = d).
Proof.
  intros c. unfold weatherHandlerAPI.
  destruct (decide (k = "")) as [->|Hk].
  - intros [= <- <-] [= <- <-]. left.
    assert (keyed c) as Hc by apply keyed_serveAllAPI, keyed_newCache.
    repeat split; try done.
    destruct (data c !! "") as [e|] eqn:He; [|done].
    by destruct (Hc _ _ He).
  - destruct (getCachedWeatherData now k c) as [[x found] c1] eqn:Hget.
    destruct found.
    + apply hit_inv in Hget as ((e & He & ->) & _ & Hd).
      destruct (encodeErr (itemData (Value e))) as [err|] eqn:Henc;
        [|by intros [= <- <-]].
      intros [= <- <-] [= <- <-]. right. right.
      split; [done|]. split; [done|].
      exists (itemData (Value e)), err, e. by rewrite Hd.
    + destruct (getCityWeatherData fetchNow apiKey httpGet k) as [d|err];
        [by intros [= <- <-]|].
      intros [= <- <-] [= <- <-]. apply miss_inv in Hget as [_ Habs].
      right. left. repeat split; try done. by exists err.
Qed.

Lemma api_error_replies_witness :
  ∃ e, data (serveAllAPI init (take 1 apiDay)) !! "Pune" = Some e.
Proof.
  destruct (api_error_replies 100 (30 * time.Minute) (take 1 apiDay)
              5 6 "secret" onlyPune encodeFails "Pune"
              (EncodeError {| City := "Pune"; Temp := 15;
                              Desc := "Partly cloudy"; CacheTime := 1 |}
                 "Error encoding response: json: unsupported value"
                 StatusInternalServerError)
              "Error encoding response: json: unsupported value"
              StatusInternalServerError
              (serveAllAPI init (take 1 apiDay)))
    as [(Hk & _)|[(_ & _ & Hw & _)|(_ & _ & d & err & e & _ & _ & He & _)]].
  - vm_compute. reflexivity.
  - reflexivity.
  - discriminate Hk.
  - discriminate Hw.
  - by exists e.
Defined.

(** A record the Weatherstack-backed server hands to the encoder, whether
    the encoder accepts it or not, is in the cache under the requested city
    when the handler returns, and it is about that city. *)
Theorem api_served_is_cached size ttl (rs : list ApiRequest)
    now fetchNow apiKey httpGet encodeErr k w d (c' : Cache) :
  let c := serveAllAPI (newCache size ttl) rs in
  weatherHandlerAPI now fetchNow apiKey httpGet encodeErr k c = (w, c') →
  encoded w = Some d →
  k ≠ "" ∧ City d = k ∧
  ∃ e, data c' !! k = Some e ∧ itemData (Value e) = d.
Proof.
  intros c. unfold weatherHandlerAPI.
  destruct (decide (k = "")) as [|Hk]; [by intros [= <- <-]|].
  destruct (getCachedWeatherData now k c) as [[x found] c1] eqn:Hget.
  destruct found.
  - apply hit_inv in Hget as ((e & He & ->) & _ & Hd).
    assert (keyed c) as Hc by apply keyed_serveAllAPI, keyed_newCache.
    destruct (Hc _ _ He) as [_ Hcity].
    assert (data c1 !! k = Some e) as He1 by by rewrite Hd.
    destruct (encodeErr (itemData (Value e)));
      intros [= <- <-] [= <-]; (split; [done|]); (split; [done|]);
      by exists e.
  - destruct (getCityWeatherData fetchNow apiKey httpGet k) as [nd|err] eqn:Hf;
      [|by intros [= <- <-]].
    intros [= <- <-] [= <-]. apply getCityWeatherData_ok in Hf as [Hcity _].
    split; [done|]. split; [done|].
    destruct (updateCache_front k nd c1) as (e & l & Hv & _ & He).
    exists e. by rewrite Hv.
Qed.

Lemma api_served_is_cached_witness :
  City {| City := "Pune"; Temp := 15; Desc := "Partly cloudy";
          CacheTime := 1 |} = "Pune".
Proof.
  apply (api_served_is_cached 100 (30 * time.Minute) [] 0 1 "secret"
           onlyPune encodes "Pune"
           (Encode {| City := "Pune"; Temp := 15; Desc := "Partly cloudy";
                      CacheTime := 1 |})
           {| City := "Pune"; Temp := 15; Desc := "Partly cloudy";
              CacheTime := 1 |}
           (serveAllAPI init (take 1 apiDay))).
  - vm_compute. reflexivity.
  - reflexivity.
Defined.

(** * The lock *)

Lemma updates_exclusive_witness :
  RW.inCritical (RW.Get 5 "Pune" RW.G_RLock) = false.
Proof.
  eapply (updates_exclusive [0; 0; 0]%nat init insertAndLookup _ 0 1
            (RW.Update "Pune" (sample "Pune" 0) RW.U_PushFront)
            (RW.Get 5 "Pune" RW.G_RLock)).
  - repeat constructor.
  - vm_compute. reflexivity.
  - lia.
  - reflexivity.
  - reflexivity.
  - reflexivity.
Defined.

Section lock_progress.
Implicit Types (t : RW.Thread) (cf : RW.Config).

(** While a writer waits in [Lock], or holds the lock, no [RLock] is
    granted. *)
Lemma RLock_blocked m :
  RW.waiting m = true ∨ RW.writer m = true → RW.RLock m = None.
Proof.
  unfold RW.RLock. intros [->| ->]; [by rewrite orb_true_r|done].
Qed.

Lemma lockInv_unlocked cf :
  RW.lockInv cf → Forall RW.outside (RW.threads cf) →
  RW.mu cf = RW.unlocked.
Proof.
  intros (Hr & Hw & Hg & _) Hout.
  rewrite (count_outside _ _ inRead_inside Hout) in Hr.
  rewrite (count_outside _ _ inWrite_inside Hout) in Hw.
  rewrite (count_outside _ _ pending_inside Hout) in Hg.
  destruct (RW.mu cf) as [r w g]. simpl in *. subst r. by destruct w, g.
Qed.

Lemma critical_can_step cf (i : nat) t :
  RW.lockInv cf → RW.threads cf !! i = Some t → RW.inCritical t = true →
  is_Some (RW.stepAt i cf).
Proof.
  intros (Hr & Hw & _) Hi Hc. unfold RW.stepAt. rewrite Hi. simpl.
  assert (RW.inRead t = true → RW.readers (RW.mu cf) ≠ O) as Hreaders.
  { intros Ht. pose proof (count_one RW.inRead _ i t Hi Ht). lia. }
  assert (RW.inWrite t = true → RW.writer (RW.mu cf) = true) as Hwriter.
  { intros Ht. pose proof (count_one RW.inWrite _ i t Hi Ht).
    destruct (RW.writer (RW.mu cf)); [done|]. simpl in Hw. lia. }
  destruct t as [now k pc|k d pc]; simpl in *.
  - destruct pc; simpl in *; try done; try (by eexists).
    + by destruct (data (RW.cache cf) !! k); eexists.
    + by case_bool_decide; eexists.
    + unfold RW.RUnlock.
      destruct (RW.readers (RW.mu cf)); [by destruct Hreaders|by eexists].
  - destruct pc; simpl in *; try done; try (by eexists).
    unfold RW.Unlock. rewrite Hwriter by done. by eexists.
Qed.

(** With no goroutine between a lock and its unlock, the goroutine that
    waits inside [Lock] gets the lock. *)
Lemma pending_can_step cf (i : nat) t :
  RW.lockInv cf → RW.threads cf !! i = Some t → RW.pending t = true →
  Forall (λ t, RW.inCritical t = false) (RW.threads cf) →
  is_Some (RW.stepAt i cf).
Proof.
  intros (Hr & Hw & Hg & _) Hi Hp Hout. unfold RW.stepAt. rewrite Hi. simpl.
  assert (RW.count RW.inRead (RW.threads cf) = O) as Hcr.
  { clear -Hout. induction Hout as [|t ts Ht _ IH]; [done|].
    rewrite count_cons, IH. unfold RW.inCritical in Ht.
    apply orb_false_iff in Ht as [-> _]. done. }
  pose proof (count_one RW.pending _ i t Hi Hp) as Hone.
  destruct t as [now k pc|k d pc]; [done|]. destruct pc; try done. simpl.
  unfold RW.Lock_acquire.
  destruct (RW.waiting (RW.mu cf)); [|simpl in Hg; lia].
  rewrite Hr, Hcr. by eexists.
Qed.

Lemma outside_can_step cf (i : nat) t :
  RW.mu cf = RW.unlocked → RW.threads cf !! i = Some t →
  RW.inCritical t = false → RW.pending t = false → finished t = false →
  is_Some (RW.stepAt i cf).
Proof.
  intros Hm Hi Hc Hp Hf. unfold RW.stepAt. rewrite Hi, Hm. simpl.
  destruct t as [now k pc|k d pc]; destruct pc; try done; by eexists.
Qed.

End lock_progress.

(** Whatever the schedule, once no goroutine is inside either call the
    mutex is free again: both functions give back what they locked on every
    path, the early return of a miss included. *)
Theorem lock_released sched (c : Cache) ts cf :
  Forall RW.outside ts →
  RW.exec sched {| RW.cache := c; RW.mu := RW.unlocked; RW.threads := ts |}
  = Some cf →
  Forall RW.outside (RW.threads cf) →
  RW.mu cf = RW.unlocked.
Proof.
  intros Hts Hex Hout. apply lockInv_unlocked; [|done].
  eapply lockInv_exec; [|done]. by apply lockInv_start.
Qed.

Lemma lock_released_witness :
  ∃ cf,
    RW.exec [0; 0; 0; 0; 0; 0; 1; 1; 1; 1; 1]%nat
      {| RW.cache := init; RW.mu := RW.unlocked;
         RW.threads := insertAndLookup |} = Some cf ∧
    RW.mu cf = RW.unlocked.
Proof.
  eexists. split; [vm_compute; reflexivity|].
  eapply (lock_released [0; 0; 0; 0; 0; 0; 1; 1; 1; 1; 1]%nat init
            insertAndLookup).
  - repeat constructor.
  - vm_compute. reflexivity.
  - repeat constructor.
Defined.

(** Whatever the schedule, the mutex never leaves every unfinished goroutine
    blocked: as long as some goroutine has not returned, some goroutine can
    take its next step. A writer that waits in [Lock] keeps new readers out,
    the readers inside leave, and the writer goes in. *)
Theorem no_deadlock sched (c : Cache) ts cf (i : nat) t :
  Forall RW.outside ts →
  RW.exec sched {| RW.cache := c; RW.mu := RW.unlocked; RW.threads := ts |}
  = Some cf →
  RW.threads cf !! i = Some t →
  finished t = false →
  ∃ j cf', RW.stepAt j cf = Some cf'.
Proof.
  intros Hts Hex Hi Hf.
  assert (RW.lockInv cf) as Hinv.
  { eapply lockInv_exec; [|done]. by apply lockInv_start. }
  destruct (decide (Forall (λ t, RW.inCritical t = false) (RW.threads cf)))
    as [Hout|Hin].
  - destruct (decide (Forall (λ t, RW.pending t = false) (RW.threads cf)))
      as [Hnone|Hsome].
    + assert (RW.inCritical t = false) as Hc.
      { rewrite Forall_lookup in Hout. by eapply Hout. }
      assert (RW.pending t = false) as Hp.
      { rewrite Forall_lookup in Hnone. by eapply Hnone. }
      destruct (outside_can_step cf i t) as [cf' Hs]; [|done..|by eauto].
      apply lockInv_unlocked; [done|].
      apply Forall_forall. intros x Hx.
      rewrite Forall_forall in Hout, Hnone. split; auto.
    + apply not_Forall_Exists in Hsome; [|apply _].
      apply Exists_exists in Hsome as (t' & Ht' & Hp).
      apply list_elem_of_lookup in Ht' as [j Hj].
      destruct (pending_can_step cf j t') as [cf' Hs];
        [done|done| |done|by eauto].
      simpl in Hp. by destruct (RW.pending t').
  - apply not_Forall_Exists in Hin; [|apply _].
    apply Exists_exists in Hin as (t' & Ht' & Hc).
    apply list_elem_of_lookup in Ht' as [j Hj].
    destruct (critical_can_step cf j t') as [cf' Hs]; [done|done| |by eauto].
    simpl in Hc. by destruct (RW.inCritical t').
Qed.

Lemma no_deadlock_witness :
  ∃ j cf',
    RW.stepAt j {| RW.cache := init;
                   RW.mu := {| RW.readers := 1; RW.writer := false;
                               RW.waiting := true |};
                   RW.threads :=
                     [RW.Update "Pune" (sample "Pune" 0) RW.U_LockWait;
                      RW.Get 5 "Pune" RW.G_index] |} = Some cf'.
Proof.
  eapply (no_deadlock [1; 0]%nat init insertAndLookup _ 0
            (RW.Update "Pune" (sample "Pune" 0) RW.U_LockWait)).
  - repeat constructor.
  - vm_compute. reflexivity.
  - reflexivity.
  - reflexivity.
Defined.

(** * The data source and the second server *)

(** The fetch succeeds exactly when there is an API key and Weatherstack
    answers 200 with a body that can be read and parsed; the record then
    carries the requested city, the temperature of the answer, its first
    description (or a fixed text when it has none) and the clock. A missing
    key, a failed request, any other status and an unreadable or malformed
    body all give an error. *)
Theorem fetch_succeeds_iff now apiKey httpGet k d :
  getCityWeatherData now apiKey httpGet k = inl d ↔
  apiKey ≠ "" ∧
  ∃ status t descs,
    httpGet (weatherstackURL apiKey k)
    = Response StatusOK status (Parsed t descs) ∧
    d = {| City := k; Temp := t;
           Desc := default "No description available" (head descs);
           CacheTime := now |}.
Proof.
  unfold getCityWeatherData, fetchWeatherFromAPI. split.
  - destruct (decide (apiKey = "")) as [|Hkey]; [done|].
    destruct (httpGet (weatherstackURL apiKey k)) as [err|code status body];
      [done|].
    destruct (decide (code ≠ StatusOK)) as [|Hcode]; [done|].
    apply dec_stable in Hcode. subst code.
    destruct body as [err|err|t descs]; [done|done|].
    intros [= <-]. split; [done|]. exists status, t, descs.
    split; [done|]. by destruct descs.
  - intros (Hkey & status & t & descs & -> & ->).
    rewrite decide_False by done.
    rewrite decide_False by (intros Hne; by apply Hne).
    by destruct descs.
Qed.

Lemma serveAPI_serve (c : Cache) r : serveAPI c r = serve c (asRequest r).
Proof. unfold serveAPI. by rewrite weatherHandlerAPI_cache. Qed.

Lemma serveAllAPI_serveAll (c : Cache) rs :
  serveAllAPI c rs = serveAll c (asRequest <$> rs).
Proof.
  unfold serveAllAPI, serveAll. revert c.
  induction rs as [|r rs IH]; intros c; [done|].
  cbn [foldl fmap list_fmap]. by rewrite serveAPI_serve, IH.
Qed.

Lemma maxSize_serve (c : Cache) r : maxSize (serve c r) = maxSize c.
Proof.
  unfold serve, weatherHandler. destruct (decide (req_city r = "")); [done|].
  pose proof (maxSize_getCachedWeatherData (req_now r) (req_city r) c) as Hm.
  destruct (getCachedWeatherData (req_now r) (req_city r) c)
    as [[x found] c1]. simpl in Hm.
  destruct found; [done|]. destruct (req_fetched r); [|done].
  cbn [snd]. by rewrite maxSize_updateCache.
Qed.

Lemma bound_serve (c : Cache) r :
  listSize c ≤ Z.max 1 (maxSize c) →
  listSize (serve c r) ≤ Z.max 1 (maxSize (serve c r)).
Proof.
  intros Hb. rewrite maxSize_serve. unfold serve, weatherHandler.
  destruct (decide (req_city r = "")); [done|].
  pose proof (maxSize_getCachedWeatherData (req_now r) (req_city r) c) as Hm.
  pose proof (listSize_getCachedWeatherData (req_now r) (req_city r) c) as Hl.
  destruct (getCachedWeatherData (req_now r) (req_city r) c)
    as [[x found] c1]. simpl in Hm, Hl.
  destruct found; [cbn [snd]; lia|].
  destruct (req_fetched r); [|cbn [snd]; lia].
  cbn [snd]. rewrite listSize_updateCache. case_bool_decide; lia.
Qed.

Lemma bound_serveAll (c : Cache) rs :
  listSize c ≤ Z.max 1 (maxSize c) →
  listSize (serveAll c rs) ≤ Z.max 1 (maxSize c).
Proof.
  unfold serveAll. revert c.
  induction rs as [|r rs IH]; intros c Hb; [done|].
  cbn [foldl]. rewrite <- (maxSize_serve c r). by apply IH, bound_serve.
Qed.

(** One request after the other, the Weatherstack-backed server keeps its
    index and its recency sequence in step, failed fetches included: the
    same keys in both, each once in the sequence, as many entries as
    elements, and never more than [maxSize] of them (one, where [maxSize]
    is not positive). *)
Theorem api_bijection size ttl (rs : list ApiRequest) :
  let c := serveAllAPI (newCache size ttl) rs in
  NoDup (recency c) ∧
  (∀ k, k ∈ indexKeys c ↔ k ∈ recency c) ∧
  indexSize c = listSize c ∧
  indexSize c ≤ Z.max 1 size.
Proof.
  intros c. subst c. rewrite serveAllAPI_serveAll.
  set (c := serveAll (newCache size ttl) (asRequest <$> rs)).
  destruct (serveAll_inv (newCache size ttl) (asRequest <$> rs)) as [Hwf Hs];
    [apply wf_newCache|apply synced_newCache|]. fold c in Hwf, Hs.
  split; [by apply synced_NoDup|].
  split; [intros k; by apply synced_keys|].
  split; [by apply synced_size|].
  rewrite (synced_size c Hwf Hs).
  pose proof (bound_serveAll (newCache size ttl) (asRequest <$> rs)) as Hb.
  fold c in Hb. simpl in Hb. unfold listSize at 1 in Hb. simpl in Hb.
  unfold golist.Len in Hb. simpl in Hb. lia.
Qed.

Lemma index_points_into_sequence_witness :
  puneElem ∈ orderedList onePune ∧ city (Value puneElem) = "Pune".
Proof.
  apply (proj1 (index_points_into_sequence 100 (30 * time.Minute)
                  [Insert "Pune" (sample "Pune" 0)]) "Pune" puneElem).
  reflexivity.
Defined.

Lemma api_entries_match_city_witness :
  ∃ e, data (serveAllAPI init apiDay) !! "Pune" = Some e ∧
       City (itemData (Value e)) = "Pune".
Proof.
  eexists. split; [vm_compute; reflexivity|].
  eapply (api_entries_match_city 100 (30 * time.Minute) apiDay "Pune").
  vm_compute. reflexivity.
Defined.
